(** * NFTMarketplace: a shallow embedding of the auction-including contract

    The development follows [contract NFTMarketplace is ERC721URIStorage]
    (Solidity 0.8.18).  Storage variables keep their Solidity names; every
    public function of the contract, declared or inherited from the ERC721
    base, is a computation in a small state/error/log monad whose [Revert]
    outcome still carries the storage as it was when the [require] fired, so
    that "what was written before the error" stays observable.  The
    transaction wrapper [transact] then applies the EVM rule: a reverted
    call commits nothing.  What other accounts do when the contract pays or
    hands a token to them is a parameter of each transaction. *)

From stdpp Require Import base decidable option list list_numbers sorting gmap strings.
From Stdlib Require Import ZArith Lia Ascii.

Open Scope Z_scope.

(** ** Machine integers and addresses *)

Abbreviation address := Z.

Definition MAX_UINT256 : Z := 2 ^ 256 - 1.

(** [unchecked { x + 1 }] on a [uint256]. *)
Definition wrap (x : Z) : Z := x mod 2 ^ 256.

(** [0.025 ether], the initial value of [listingPrice]. *)
Definition initialListingPrice : Z := 25000000000000000.

(** ** Storage layout *)

Record MarketItem := {
  item_tokenId : Z;
  item_seller : address;
  item_owner : address;
  item_price : Z;
  item_sold : bool
}.

Record Auction := {
  startPrice : Z;
  endTimestamp : Z;
  highestBidder : address;
  highestBid : Z;
  active : bool
}.

(** The value a Solidity mapping returns for a key never written. *)
Definition zeroItem : MarketItem :=
  {| item_tokenId := 0; item_seller := 0; item_owner := 0; item_price := 0; item_sold := false |}.

Definition zeroAuction : Auction :=
  {| startPrice := 0; endTimestamp := 0; highestBidder := 0; highestBid := 0; active := false |}.

(** Contract storage, together with the mappings of the inherited
    ERC721URIStorage base that the entry points of the contract read and
    write ([_owners], [_tokenApprovals], [_operatorApprovals], [_tokenURIs])
    and the ether held by the contract.  The base's [_balances], which only
    [balanceOf] reads, is left out. *)
Record State := {
  _tokenIds : Z;
  _itemsSold : Z;
  listingPrice : Z;
  owner : address;
  idToMarketItem : gmap Z MarketItem;
  auctions : gmap Z Auction;
  _bids : gmap (Z * Z) Z;
  _owners : gmap Z address;
  _tokenApprovals : gmap Z address;
  _operatorApprovals : gmap (address * address) bool;
  _tokenURIs : gmap Z string;
  balance : Z
}.

Definition set_tokenIds (v : Z) (s : State) : State :=
  {| _tokenIds := v; _itemsSold := _itemsSold s; listingPrice := listingPrice s;
     owner := owner s; idToMarketItem := idToMarketItem s; auctions := auctions s;
     _bids := _bids s; _owners := _owners s; _tokenApprovals := _tokenApprovals s;
     _operatorApprovals := _operatorApprovals s; _tokenURIs := _tokenURIs s;
     balance := balance s |}.

Definition set_itemsSold (v : Z) (s : State) : State :=
  {| _tokenIds := _tokenIds s; _itemsSold := v; listingPrice := listingPrice s;
     owner := owner s; idToMarketItem := idToMarketItem s; auctions := auctions s;
     _bids := _bids s; _owners := _owners s; _tokenApprovals := _tokenApprovals s;
     _operatorApprovals := _operatorApprovals s; _tokenURIs := _tokenURIs s;
     balance := balance s |}.

Definition set_listingPrice (v : Z) (s : State) : State :=
  {| _tokenIds := _tokenIds s; _itemsSold := _itemsSold s; listingPrice := v; owner := owner s;
     idToMarketItem := idToMarketItem s; auctions := auctions s; _bids := _bids s;
     _owners := _owners s; _tokenApprovals := _tokenApprovals s;
     _operatorApprovals := _operatorApprovals s; _tokenURIs := _tokenURIs s;
     balance := balance s |}.

Definition set_idToMarketItem (v : gmap Z MarketItem) (s : State) : State :=
  {| _tokenIds := _tokenIds s; _itemsSold := _itemsSold s; listingPrice := listingPrice s;
     owner := owner s; idToMarketItem := v; auctions := auctions s; _bids := _bids s;
     _owners := _owners s; _tokenApprovals := _tokenApprovals s;
     _operatorApprovals := _operatorApprovals s; _tokenURIs := _tokenURIs s;
     balance := balance s |}.

Definition set_auctions (v : gmap Z Auction) (s : State) : State :=
  {| _tokenIds := _tokenIds s; _itemsSold := _itemsSold s; listingPrice := listingPrice s;
     owner := owner s; idToMarketItem := idToMarketItem s; auctions := v; _bids := _bids s;
     _owners := _owners s; _tokenApprovals := _tokenApprovals s;
     _operatorApprovals := _operatorApprovals s; _tokenURIs := _tokenURIs s;
     balance := balance s |}.

Definition set_bids (v : gmap (Z * Z) Z) (s : State) : State :=
  {| _tokenIds := _tokenIds s; _itemsSold := _itemsSold s; listingPrice := listingPrice s;
     owner := owner s; idToMarketItem := idToMarketItem s; auctions := auctions s; _bids := v;
     _owners := _owners s; _tokenApprovals := _tokenApprovals s;
     _operatorApprovals := _operatorApprovals s; _tokenURIs := _tokenURIs s;
     balance := balance s |}.

Definition set_owners (v : gmap Z address) (s : State) : State :=
  {| _tokenIds := _tokenIds s; _itemsSold := _itemsSold s; listingPrice := listingPrice s;
     owner := owner s; idToMarketItem := idToMarketItem s; auctions := auctions s;
     _bids := _bids s; _owners := v; _tokenApprovals := _tokenApprovals s;
     _operatorApprovals := _operatorApprovals s; _tokenURIs := _tokenURIs s;
     balance := balance s |}.

Definition set_tokenApprovals (v : gmap Z address) (s : State) : State :=
  {| _tokenIds := _tokenIds s; _itemsSold := _itemsSold s; listingPrice := listingPrice s;
     owner := owner s; idToMarketItem := idToMarketItem s; auctions := auctions s;
     _bids := _bids s; _owners := _owners s; _tokenApprovals := v;
     _operatorApprovals := _operatorApprovals s; _tokenURIs := _tokenURIs s;
     balance := balance s |}.

Definition set_operatorApprovals (v : gmap (address * address) bool) (s : State) : State :=
  {| _tokenIds := _tokenIds s; _itemsSold := _itemsSold s; listingPrice := listingPrice s;
     owner := owner s; idToMarketItem := idToMarketItem s; auctions := auctions s;
     _bids := _bids s; _owners := _owners s; _tokenApprovals := _tokenApprovals s;
     _operatorApprovals := v; _tokenURIs := _tokenURIs s; balance := balance s |}.

Definition set_tokenURIs (v : gmap Z string) (s : State) : State :=
  {| _tokenIds := _tokenIds s; _itemsSold := _itemsSold s; listingPrice := listingPrice s;
     owner := owner s; idToMarketItem := idToMarketItem s; auctions := auctions s;
     _bids := _bids s; _owners := _owners s; _tokenApprovals := _tokenApprovals s;
     _operatorApprovals := _operatorApprovals s; _tokenURIs := v; balance := balance s |}.

Definition set_balance (v : Z) (s : State) : State :=
  {| _tokenIds := _tokenIds s; _itemsSold := _itemsSold s; listingPrice := listingPrice s;
     owner := owner s; idToMarketItem := idToMarketItem s; auctions := auctions s;
     _bids := _bids s; _owners := _owners s; _tokenApprovals := _tokenApprovals s;
     _operatorApprovals := _operatorApprovals s; _tokenURIs := _tokenURIs s; balance := v |}.

(** Reads of the mappings, with Solidity's zero default. *)
Definition itemAt (s : State) (id : Z) : MarketItem := default zeroItem (idToMarketItem s !! id).
Definition auctionAt (s : State) (id : Z) : Auction := default zeroAuction (auctions s !! id).
Definition bidAt (s : State) (id : Z) (who : address) : Z := default 0 (_bids s !! (id, who)).
Definition ownerAt (s : State) (id : Z) : address := default 0 (_owners s !! id).
Definition approvedAt (s : State) (id : Z) : address := default 0 (_tokenApprovals s !! id).
Definition operatorAt (s : State) (holder operator : address) : bool :=
  default false (_operatorApprovals s !! (holder, operator)).

(** Writes of a whole entry. *)
Definition putItem (id : Z) (it : MarketItem) (s : State) : State :=
  set_idToMarketItem (<[id := it]> (idToMarketItem s)) s.
Definition putAuction (id : Z) (a : Auction) (s : State) : State :=
  set_auctions (<[id := a]> (auctions s)) s.
Definition putBid (id : Z) (who : address) (v : Z) (s : State) : State :=
  set_bids (<[(id, who) := v]> (_bids s)) s.
Definition putOwner (id : Z) (who : address) (s : State) : State :=
  set_owners (<[id := who]> (_owners s)) s.
Definition putApproval (id : Z) (who : address) (s : State) : State :=
  set_tokenApprovals (<[id := who]> (_tokenApprovals s)) s.
Definition putOperator (holder operator : address) (approved : bool) (s : State) : State :=
  set_operatorApprovals (<[(holder, operator) := approved]> (_operatorApprovals s)) s.

(** [delete _tokenApprovals[id]]: the entry is reset to zero. *)
Definition clearApproval (id : Z) (s : State) : State := putApproval id 0 s.

(** ** Errors

    The first ten constructors are the [require] failures written in the
    contract; the rest come from the OpenZeppelin base contracts, from
    checked arithmetic and array indexing, and from the EVM. *)
Inductive Error :=
| InvalidPrice
| FeeMismatch
| PriceMismatch
| NotOwner
| NotAuthorized
| NoActiveAuction
| AuctionEnded
| AuctionStillActive
| BidTooLow
| NothingToWithdraw
| ERC721InvalidTokenId
| ERC721MintToZero
| ERC721AlreadyMinted
| ERC721IncorrectOwner
| ERC721TransferToZero
| ERC721URINonexistent
| ERC721NotApproved
| ERC721ApprovalToOwner
| ERC721ApproveNotAllowed
| ERC721ApproveToCaller
| ERC721NonReceiver
| CounterUnderflow
| PanicOverflow
| PanicIndex
| PanicAlloc
| TransferFailed
| NonPayable.

Global Instance Error_eq_dec : EqDecision Error.
Proof. solve_decision. Defined.

(** The revert strings as they appear in the source, per place of use
    ([NotAuthorized] stands for three different strings). *)
Definition message (e : Error) : string :=
  match e with
  | InvalidPrice => "Price must be at least 1 wei"
  | FeeMismatch => "Price must be equal to listing price"
  | PriceMismatch => "Please submit the asking price in order to complete the purchase"
  | NotOwner => "Only item owner can perform this operation"
  | NotAuthorized => "Only the owner can ..."
  | NoActiveAuction => "No active auction for this token."
  | AuctionEnded => "The auction has already ended."
  | AuctionStillActive => "The auction has not ended yet."
  | BidTooLow => "Bid must be higher than the current highest bid."
  | NothingToWithdraw => "You do not have any bids to withdraw for this token."
  | ERC721InvalidTokenId => "ERC721: invalid token ID"
  | ERC721MintToZero => "ERC721: mint to the zero address"
  | ERC721AlreadyMinted => "ERC721: token already minted"
  | ERC721IncorrectOwner => "ERC721: transfer from incorrect owner"
  | ERC721TransferToZero => "ERC721: transfer to the zero address"
  | ERC721URINonexistent => "ERC721URIStorage: URI set of nonexistent token"
  | ERC721NotApproved => "ERC721: caller is not token owner or approved"
  | ERC721ApprovalToOwner => "ERC721: approval to current owner"
  | ERC721ApproveNotAllowed => "ERC721: approve caller is not token owner or approved for all"
  | ERC721ApproveToCaller => "ERC721: approve to caller"
  | ERC721NonReceiver => "ERC721: transfer to non ERC721Receiver implementer"
  | CounterUnderflow => "Counter: decrement overflow"
  | PanicOverflow => "Panic(0x11)"
  | PanicIndex => "Panic(0x32)"
  | PanicAlloc => "Panic(0x41)"
  | TransferFailed => "transfer failed"
  | NonPayable => "value sent to a non-payable function"
  end.

(** The errors of the marketplace's own [require] statements. *)
Definition is_precondition_error (e : Error) : bool :=
  match e with
  | InvalidPrice | FeeMismatch | PriceMismatch | NotOwner | NotAuthorized
  | NoActiveAuction | AuctionEnded | AuctionStillActive | BidTooLow
  | NothingToWithdraw => true
  | _ => false
  end.

(** ** The execution monad *)

(** What the rest of the chain does when the contract calls out: whether a
    plain transfer of ether to an address goes through (it does not for a
    contract without a payable receive function, or for one that needs more
    than the 2300 gas of the stipend), and whether an address takes a token
    sent with [safeTransferFrom] (an externally owned account does, a
    contract only if it implements [onERC721Received]). *)
Record World := {
  takes_ether : address → bool;
  takes_token : address → bool
}.

(** The world in which every address takes ether and tokens. *)
Definition open_world : World := {| takes_ether := λ _, true; takes_token := λ _, true |}.

Record Env := {
  this : address;
  msg_sender : address;
  msg_value : Z;
  block_timestamp : Z;
  world : World
}.

(** What a call makes visible outside the storage: the event of the
    contract, and outgoing ether.  [Sent] records the storage the recipient
    would observe if it called back during the transfer. *)
Inductive Effect :=
| MarketItemCreated (tokenId : Z) (seller owner : address) (price : Z) (sold : bool)
| Sent (to : address) (amount : Z) (seen : State).

Inductive Outcome (A : Type) :=
| Ok (a : A) (s : State) (log : list Effect)
| Revert (e : Error) (s : State).
Arguments Ok {A} a s log.
Arguments Revert {A} e s.

Definition M (A : Type) : Type := Env → State → Outcome A.

Definition bind {A B} (m : M A) (k : A → M B) : M B := λ env s,
  match m env s with
  | Ok a s1 l1 =>
      match k a env s1 with
      | Ok b s2 l2 => Ok b s2 (l1 ++ l2)
      | Revert e s2 => Revert e s2
      end
  | Revert e s1 => Revert e s1
  end.

Global Instance M_ret : MRet M := λ A a env s, Ok a s [].
Global Instance M_bind : MBind M := λ A B k m, bind m k.

Definition get : M State := λ env s, Ok s s [].
Definition ask : M Env := λ env s, Ok env s [].
Definition modify (f : State → State) : M unit := λ env s, Ok () (f s) [].
Definition emit (ev : Effect) : M unit := λ env s, Ok () s [ev].
Definition revert {A} (e : Error) : M A := λ env s, Revert e s.

Definition require (P : Prop) `{Decision P} (e : Error) : M unit :=
  if decide P then mret () else revert e.

(** [payable(to).transfer(amount)]: reverts when the contract does not hold
    [amount], and when the recipient does not take the payment. *)
Definition transfer (to : address) (amount : Z) : M unit := λ env s,
  if decide (amount ≤ balance s) then
    if decide (takes_ether (world env) to = true) then
      let s' := set_balance (balance s - amount) s in
      Ok () s' [Sent to amount s']
    else Revert TransferFailed s
  else Revert TransferFailed s.

(** Checked [a + b] and [a - b] on [uint256]. *)
Definition checked_add (a b : Z) : M Z :=
  if decide (a + b ≤ MAX_UINT256) then mret (a + b) else revert PanicOverflow.
Definition checked_sub (a b : Z) : M Z :=
  if decide (b ≤ a) then mret (a - b) else revert PanicOverflow.

(** [for (uint i = start; ...; i++)] over [n] iterations. *)
Fixpoint for_range {A} (n : nat) (i : Z) (body : Z → A → M A) (a : A) : M A :=
  match n with
  | O => mret a
  | S n' => a' ← body i a; for_range n' (i + 1) body a'
  end.

(** ** OpenZeppelin Contracts 4.x: Counters and the ERC721 base *)

Module Counters.
Definition current_tokenIds : M Z := s ← get; mret (_tokenIds s).
Definition current_itemsSold : M Z := s ← get; mret (_itemsSold s).
Definition increment_tokenIds : M unit :=
  modify (λ s, set_tokenIds (wrap (_tokenIds s + 1)) s).
Definition increment_itemsSold : M unit :=
  modify (λ s, set_itemsSold (wrap (_itemsSold s + 1)) s).
Definition decrement_itemsSold : M unit :=
  s ← get;
  require (_itemsSold s > 0) CounterUnderflow;;
  modify (set_itemsSold (_itemsSold s - 1)).
End Counters.

Definition ownerOf (tokenId : Z) : M address :=
  s ← get;
  require (ownerAt s tokenId ≠ 0) ERC721InvalidTokenId;;
  mret (ownerAt s tokenId).

Definition _mint (to : address) (tokenId : Z) : M unit :=
  require (to ≠ 0) ERC721MintToZero;;
  s ← get;
  require (ownerAt s tokenId = 0) ERC721AlreadyMinted;;
  modify (putOwner tokenId to).

Definition _transfer (from to : address) (tokenId : Z) : M unit :=
  o ← ownerOf tokenId;
  require (o = from) ERC721IncorrectOwner;;
  require (to ≠ 0) ERC721TransferToZero;;
  modify (clearApproval tokenId);;
  modify (putOwner tokenId to).

Definition _setTokenURI (tokenId : Z) (uri : string) : M unit :=
  s ← get;
  require (ownerAt s tokenId ≠ 0) ERC721URINonexistent;;
  modify (λ s, set_tokenURIs (<[tokenId := uri]> (_tokenURIs s)) s).

(** The public entry points of the ERC721 base, which the marketplace
    inherits unchanged.  The two overloads of [safeTransferFrom] differ only
    in the data handed to the recipient. *)

Definition _isApprovedOrOwner (spender : address) (tokenId : Z) : M bool :=
  o ← ownerOf tokenId;
  s ← get;
  mret (bool_decide (spender = o) || operatorAt s o spender
        || bool_decide (approvedAt s tokenId = spender)).

Definition approve (to : address) (tokenId : Z) : M unit :=
  env ← ask;
  o ← ownerOf tokenId;
  require (to ≠ o) ERC721ApprovalToOwner;;
  s ← get;
  require (msg_sender env = o ∨ operatorAt s o (msg_sender env) = true)
    ERC721ApproveNotAllowed;;
  modify (putApproval tokenId to).

Definition setApprovalForAll (operator : address) (approved : bool) : M unit :=
  env ← ask;
  require (msg_sender env ≠ operator) ERC721ApproveToCaller;;
  modify (putOperator (msg_sender env) operator approved).

Definition transferFrom (from to : address) (tokenId : Z) : M unit :=
  env ← ask;
  allowed ← _isApprovedOrOwner (msg_sender env) tokenId;
  require (allowed = true) ERC721NotApproved;;
  _transfer from to tokenId.

Definition safeTransferFrom (from to : address) (tokenId : Z) : M unit :=
  env ← ask;
  allowed ← _isApprovedOrOwner (msg_sender env) tokenId;
  require (allowed = true) ERC721NotApproved;;
  _transfer from to tokenId;;
  require (takes_token (world env) to = true) ERC721NonReceiver.

(** ** The marketplace functions *)

Definition createMarketItem (tokenId price : Z) : M unit :=
  env ← ask;
  s ← get;
  require (price > 0) InvalidPrice;;
  require (msg_value env = listingPrice s) FeeMismatch;;
  modify (putItem tokenId
    {| item_tokenId := tokenId; item_seller := msg_sender env;
       item_owner := this env; item_price := price; item_sold := false |});;
  _transfer (msg_sender env) (this env) tokenId;;
  emit (MarketItemCreated tokenId (msg_sender env) (this env) price false).

Definition createToken (tokenURI : string) (price : Z) : M Z :=
  env ← ask;
  Counters.increment_tokenIds;;
  newTokenId ← Counters.current_tokenIds;
  _mint (msg_sender env) newTokenId;;
  _setTokenURI newTokenId tokenURI;;
  createMarketItem newTokenId price;;
  mret newTokenId.

Definition resellToken (tokenId price : Z) : M unit :=
  env ← ask;
  s ← get;
  require (item_owner (itemAt s tokenId) = msg_sender env) NotOwner;;
  require (msg_value env = listingPrice s) FeeMismatch;;
  modify (λ s, putItem tokenId
    {| item_tokenId := item_tokenId (itemAt s tokenId);
       item_seller := msg_sender env;
       item_owner := this env;
       item_price := price;
       item_sold := false |} s);;
  Counters.decrement_itemsSold;;
  _transfer (msg_sender env) (this env) tokenId.

Definition createMarketSale (tokenId : Z) : M unit :=
  env ← ask;
  s ← get;
  let price := item_price (itemAt s tokenId) in
  require (msg_value env = price) PriceMismatch;;
  modify (λ s, putItem tokenId
    {| item_tokenId := item_tokenId (itemAt s tokenId);
       item_seller := item_seller (itemAt s tokenId);
       item_owner := msg_sender env;
       item_price := item_price (itemAt s tokenId);
       item_sold := true |} s);;
  Counters.increment_itemsSold;;
  _transfer (this env) (msg_sender env) tokenId;;
  s ← get;
  transfer (owner s) (listingPrice s).

Definition startAuction (tokenId startPrice endTimestamp : Z) : M unit :=
  env ← ask;
  o ← ownerOf tokenId;
  require (msg_sender env = o) NotAuthorized;;
  modify (putAuction tokenId
    {| startPrice := startPrice; endTimestamp := endTimestamp;
       highestBidder := 0; highestBid := 0; active := true |}).

Definition finalizeAuction (tokenId : Z) : M unit :=
  env ← ask;
  s ← get;
  require (active (auctionAt s tokenId) = true) NoActiveAuction;;
  require (block_timestamp env >= endTimestamp (auctionAt s tokenId)) AuctionStillActive;;
  modify (λ s, putAuction tokenId
    {| startPrice := startPrice (auctionAt s tokenId);
       endTimestamp := endTimestamp (auctionAt s tokenId);
       highestBidder := highestBidder (auctionAt s tokenId);
       highestBid := highestBid (auctionAt s tokenId);
       active := false |} s);;
  s ← get;
  if decide (highestBidder (auctionAt s tokenId) ≠ 0) then
    _transfer (this env) (highestBidder (auctionAt s tokenId)) tokenId;;
    modify (putBid tokenId (highestBidder (auctionAt s tokenId)) 0);;
    s ← get;
    let seller := item_seller (itemAt s tokenId) in
    transfer seller (highestBid (auctionAt s tokenId))
  else mret ().

Definition placeBid (tokenId : Z) : M unit :=
  env ← ask;
  s ← get;
  require (active (auctionAt s tokenId) = true) NoActiveAuction;;
  require (block_timestamp env < endTimestamp (auctionAt s tokenId)) AuctionEnded;;
  require (msg_value env > highestBid (auctionAt s tokenId)) BidTooLow;;
  (if decide (highestBidder (auctionAt s tokenId) ≠ 0) then
     let prev := highestBidder (auctionAt s tokenId) in
     total ← checked_add (bidAt s tokenId prev) (highestBid (auctionAt s tokenId));
     modify (putBid tokenId prev total)
   else mret ());;
  modify (λ s, putAuction tokenId
    {| startPrice := startPrice (auctionAt s tokenId);
       endTimestamp := endTimestamp (auctionAt s tokenId);
       highestBidder := msg_sender env;
       highestBid := msg_value env;
       active := active (auctionAt s tokenId) |} s);;
  modify (putBid tokenId (msg_sender env) (msg_value env)).

Definition withdrawBid (tokenId : Z) : M unit :=
  env ← ask;
  s ← get;
  let bidAmount := bidAt s tokenId (msg_sender env) in
  require (bidAmount > 0) NothingToWithdraw;;
  modify (putBid tokenId (msg_sender env) 0);;
  transfer (msg_sender env) bidAmount.

Definition updateListingPrice (_listingPrice : Z) : M unit :=
  env ← ask;
  s ← get;
  require (owner s = msg_sender env) NotAuthorized;;
  modify (set_listingPrice _listingPrice).

Definition setTokenURI (tokenId : Z) (_tokenURI : string) : M unit :=
  env ← ask;
  o ← ownerOf tokenId;
  require (msg_sender env = o) NotAuthorized;;
  _setTokenURI tokenId _tokenURI.

(** [new MarketItem[](n)]: a memory array of [n] zero entries; a length
    above [2^64 - 1] is refused with Panic(0x41). *)
Definition MAX_ARRAY_LENGTH : Z := 2 ^ 64 - 1.

Definition new_items (n : Z) : M (list MarketItem) :=
  if decide (n ≤ MAX_ARRAY_LENGTH) then mret (replicate (Z.to_nat n) zeroItem)
  else revert PanicAlloc.

(** [items[currentIndex] = currentItem] on a memory array. *)
Definition array_store (items : list MarketItem) (i : Z) (it : MarketItem)
  : M (list MarketItem) :=
  if decide (i < Z.of_nat (length items)) then mret (<[Z.to_nat i := it]> items)
  else revert PanicIndex.

Definition fetchMarketItems : M (list MarketItem) :=
  env ← ask;
  s ← get;
  let itemCount := _tokenIds s in
  unsoldItemCount ← checked_sub (_tokenIds s) (_itemsSold s);
  items ← new_items unsoldItemCount;
  r ← for_range (Z.to_nat itemCount) 0
        (λ i acc,
           if decide (item_owner (itemAt s (i + 1)) = this env) then
             let currentId := i + 1 in
             let currentItem := itemAt s currentId in
             items' ← array_store acc.1 acc.2 currentItem;
             mret (items', acc.2 + 1)
           else mret acc)
        (items, 0);
  mret r.1.

(** ** Transactions

    The state-changing functions a transaction can call: the nine the
    contract declares and the four it inherits from the ERC721 base. *)

Inductive Call :=
| CreateToken (tokenURI : string) (price : Z)
| ResellToken (tokenId price : Z)
| CreateMarketSale (tokenId : Z)
| StartAuction (tokenId startPrice endTimestamp : Z)
| FinalizeAuction (tokenId : Z)
| PlaceBid (tokenId : Z)
| WithdrawBid (tokenId : Z)
| UpdateListingPrice (_listingPrice : Z)
| SetTokenURI (tokenId : Z) (_tokenURI : string)
| Approve (to : address) (tokenId : Z)
| SetApprovalForAll (operator : address) (approved : bool)
| TransferFrom (from to : address) (tokenId : Z)
| SafeTransferFrom (from to : address) (tokenId : Z).

(** Functions declared [payable] in the source; none of the inherited ones
    is. *)
Definition payable (c : Call) : bool :=
  match c with
  | CreateToken _ _ | ResellToken _ _ | CreateMarketSale _ | PlaceBid _
  | UpdateListingPrice _ => true
  | StartAuction _ _ _ | FinalizeAuction _ | WithdrawBid _ | SetTokenURI _ _
  | Approve _ _ | SetApprovalForAll _ _ | TransferFrom _ _ _ | SafeTransferFrom _ _ _ => false
  end.

Definition no_result (m : M unit) : M (option Z) := λ env s,
  match m env s with
  | Ok _ s' log => Ok None s' log
  | Revert e s' => Revert e s'
  end.

Definition exec (c : Call) : M (option Z) :=
  match c with
  | CreateToken uri p => λ env s,
      match createToken uri p env s with
      | Ok id s' log => Ok (Some id) s' log
      | Revert e s' => Revert e s'
      end
  | ResellToken t p => no_result (resellToken t p)
  | CreateMarketSale t => no_result (createMarketSale t)
  | StartAuction t p e => no_result (startAuction t p e)
  | FinalizeAuction t => no_result (finalizeAuction t)
  | PlaceBid t => no_result (placeBid t)
  | WithdrawBid t => no_result (withdrawBid t)
  | UpdateListingPrice p => no_result (updateListingPrice p)
  | SetTokenURI t u => no_result (setTokenURI t u)
  | Approve to t => no_result (approve to t)
  | SetApprovalForAll operator approved => no_result (setApprovalForAll operator approved)
  | TransferFrom from to t => no_result (transferFrom from to t)
  | SafeTransferFrom from to t => no_result (safeTransferFrom from to t)
  end.

(** A transaction: who calls, with how much ether, when, which function,
    and how the other accounts respond while it runs. *)
Record Tx := {
  tx_sender : address;
  tx_value : Z;
  tx_time : Z;
  tx_call : Call;
  tx_world : World
}.

Inductive Receipt :=
| Success (ret : option Z) (log : list Effect)
| Failure (e : Error).

Definition env_of (self : address) (tx : Tx) : Env :=
  {| this := self; msg_sender := tx_sender tx; msg_value := tx_value tx;
     block_timestamp := tx_time tx; world := tx_world tx |}.

(** The attached value is credited to the contract before the body runs. *)
Definition entry (tx : Tx) (s : State) : State := set_balance (balance s + tx_value tx) s.

(** The body of a call on the state at entry; a [Revert] still shows the
    storage at the failing [require]. *)
Definition body (self : address) (tx : Tx) (s : State) : Outcome (option Z) :=
  exec (tx_call tx) (env_of self tx) (entry tx s).

(** A whole transaction: value sent to a non-payable function is refused,
    and a reverted body leaves the pre-call state. *)
Definition transact (self : address) (tx : Tx) (s : State) : State * Receipt :=
  if negb (payable (tx_call tx)) && bool_decide (tx_value tx ≠ 0) then (s, Failure NonPayable)
  else match body self tx s with
       | Ok r s' log => (s', Success r log)
       | Revert e _ => (s, Failure e)
       end.

Fixpoint run (self : address) (txs : list Tx) (s : State) : State :=
  match txs with
  | [] => s
  | tx :: rest => run self rest (transact self tx s).1
  end.

(** The state after the constructor, deployed by [operator]. *)
Definition deploy (operator : address) : State :=
  {| _tokenIds := 0; _itemsSold := 0; listingPrice := initialListingPrice;
     owner := operator; idToMarketItem := ∅; auctions := ∅; _bids := ∅;
     _owners := ∅; _tokenApprovals := ∅; _operatorApprovals := ∅; _tokenURIs := ∅;
     balance := 0 |}.

(** Callers are externally owned accounts or other contracts: never the
    zero address and never the marketplace itself (no function of the
    contract calls back into it), and the attached value is a [uint256]. *)
Definition wf_tx (self : address) (tx : Tx) : Prop :=
  tx_sender tx ≠ 0 ∧ tx_sender tx ≠ self ∧ 0 ≤ tx_value tx ≤ MAX_UINT256.


(** The ids returned by the successful [createToken] calls of a trace. *)
Fixpoint minted_ids (self : address) (txs : list Tx) (s : State) : list Z :=
  match txs with
  | [] => []
  | tx :: rest =>
      match (transact self tx s).2 with
      | Success (Some id) _ => id :: minted_ids self rest (transact self tx s).1
      | _ => minted_ids self rest (transact self tx s).1
      end
  end.

(** The listings among ids [i+1 .. i+n] whose recorded owner is [self];
    [held_count] is their number. *)
Definition held_items (self : address) (s : State) (i : Z) (n : nat) : list MarketItem :=
  filter (λ it, item_owner it = self) (map (itemAt s) (seqZ (i + 1) (Z.of_nat n))).

(** [1] when [P] holds, else [0]. *)
Definition ind (P : Prop) `{Decision P} : Z := if decide P then 1 else 0.

Fixpoint held_count (self : address) (s : State) (n : nat) : Z :=
  match n with
  | O => 0
  | S k => held_count self s k
           + (if decide (item_owner (itemAt s (Z.of_nat (S k))) = self) then 1 else 0)
  end.

(** What holds of every state the thirteen entry points can produce from
    [deploy] while the two counters have not wrapped.  The registry owner of
    an asset and the owner its listing records are not tied to each other
    (a direct registry transfer moves the first and not the second), and the
    sold counter can run ahead of the listings that are not held. *)
Record Inv (self : address) (s : State) : Prop := {
  inv_ids : 0 ≤ _tokenIds s;
  inv_sold_count : 0 ≤ _itemsSold s;
  inv_balance : 0 ≤ balance s;
  inv_fresh : ∀ id, ¬ (1 ≤ id ≤ _tokenIds s) → itemAt s id = zeroItem ∧ ownerAt s id = 0;
  inv_minted : ∀ id, 1 ≤ id ≤ _tokenIds s →
    ownerAt s id ≠ 0 ∧ item_owner (itemAt s id) ≠ 0 ∧ item_tokenId (itemAt s id) = id;
  inv_sold : ∀ id, 1 ≤ id ≤ _tokenIds s →
    (item_sold (itemAt s id) = true ↔ item_owner (itemAt s id) ≠ self);
  inv_count : _tokenIds s ≤ held_count self s (Z.to_nat (_tokenIds s)) + _itemsSold s
}.

Global Instance wf_tx_dec self tx : Decision (wf_tx self tx).
Proof. unfold wf_tx. apply _. Defined.

(** Who the registry lets move asset [t]: its owner, an operator of the
    owner, or the address approved for [t]. *)
Definition may_move (s : State) (spender : address) (t : Z) : Prop :=
  spender = ownerAt s t ∨ operatorAt s (ownerAt s t) spender = true
  ∨ approvedAt s t = spender.

(** The marketplace has appointed no operator, and no address is approved
    for an asset the marketplace owns. *)
Definition custody_sealed (self : address) (s : State) : Prop :=
  (∀ x, operatorAt s self x = false) ∧ (∀ t, ownerAt s t = self → approvedAt s t = 0).

(** ** The state each function leaves when it returns *)

Definition sale_item (t : Z) (buyer : address) (s : State) : MarketItem :=
  {| item_tokenId := item_tokenId (itemAt s t); item_seller := item_seller (itemAt s t);
     item_owner := buyer; item_price := item_price (itemAt s t); item_sold := true |}.

(** The registry writes of [_transfer]. *)
Definition moveToken (t : Z) (to : address) (s : State) : State :=
  putOwner t to (clearApproval t s).

Definition sale_state (t : Z) (buyer : address) (s : State) : State :=
  set_balance (balance s - listingPrice s)
    (moveToken t buyer
      (set_itemsSold (wrap (_itemsSold s + 1)) (putItem t (sale_item t buyer s) s))).

Definition relist_item (t price : Z) (caller self : address) (s : State) : MarketItem :=
  {| item_tokenId := item_tokenId (itemAt s t); item_seller := caller;
     item_owner := self; item_price := price; item_sold := false |}.

Definition relist_state (t price : Z) (caller self : address) (s : State) : State :=
  moveToken t self
    (set_itemsSold (_itemsSold s - 1) (putItem t (relist_item t price caller self s) s)).

Definition mint_item (id price : Z) (caller self : address) : MarketItem :=
  {| item_tokenId := id; item_seller := caller; item_owner := self;
     item_price := price; item_sold := false |}.

Definition mint_state (uri : string) (price : Z) (caller self : address) (s : State) : State :=
  let id := wrap (_tokenIds s + 1) in
  moveToken id self
    (putItem id (mint_item id price caller self)
      (set_tokenURIs (<[id := uri]> (_tokenURIs s))
        (putOwner id caller (set_tokenIds id s)))).

Definition fresh_auction (startPrice endTimestamp : Z) : Auction :=
  {| startPrice := startPrice; endTimestamp := endTimestamp;
     highestBidder := 0; highestBid := 0; active := true |}.

Definition closed_auction (a : Auction) : Auction :=
  {| startPrice := startPrice a; endTimestamp := endTimestamp a;
     highestBidder := highestBidder a; highestBid := highestBid a; active := false |}.

(** The state [finalizeAuction] leaves when there is a highest bidder. *)
Definition settled_state (t : Z) (s : State) : State :=
  let a := auctionAt s t in
  set_balance (balance s - highestBid a)
    (putBid t (highestBidder a) 0
      (moveToken t (highestBidder a) (putAuction t (closed_auction a) s))).

(** The state a successful [placeBid] leaves. *)
Definition bid_state (t : Z) (bidder : address) (amount : Z) (s : State) : State :=
  let a := auctionAt s t in
  let credited :=
    if decide (highestBidder a ≠ 0)
    then putBid t (highestBidder a) (bidAt s t (highestBidder a) + highestBid a) s
    else s in
  putBid t bidder amount
    (putAuction t
       {| startPrice := startPrice a; endTimestamp := endTimestamp a;
          highestBidder := bidder; highestBid := amount; active := active a |}
       credited).

(** ** Transactions used in the statements

    Each is made in [open_world]; [in_world] replaces the world.  Nothing is
    lost by stating a result in the open world: a call that succeeds in any
    world succeeds there with the same result, and a call that fails there
    fails with the same error in every world (lemmas [refusal_only_reverts]
    and [failure_in_every_world] below). *)

Definition in_world (w : World) (tx : Tx) : Tx :=
  {| tx_sender := tx_sender tx; tx_value := tx_value tx; tx_time := tx_time tx;
     tx_call := tx_call tx; tx_world := w |}.

Definition finalize_tx (caller : address) (now t : Z) : Tx :=
  {| tx_sender := caller; tx_value := 0; tx_time := now; tx_call := FinalizeAuction t;
     tx_world := open_world |}.

Definition buy_tx (caller : address) (attached now t : Z) : Tx :=
  {| tx_sender := caller; tx_value := attached; tx_time := now; tx_call := CreateMarketSale t;
     tx_world := open_world |}.

Definition bid_tx (caller : address) (attached now t : Z) : Tx :=
  {| tx_sender := caller; tx_value := attached; tx_time := now; tx_call := PlaceBid t;
     tx_world := open_world |}.

Definition withdraw_tx (caller : address) (now t : Z) : Tx :=
  {| tx_sender := caller; tx_value := 0; tx_time := now; tx_call := WithdrawBid t;
     tx_world := open_world |}.

Definition mint_tx (caller : address) (attached now : Z) (uri : string) (price : Z) : Tx :=
  {| tx_sender := caller; tx_value := attached; tx_time := now;
     tx_call := CreateToken uri price;
     tx_world := open_world |}.

Definition relist_tx (caller : address) (attached now t price : Z) : Tx :=
  {| tx_sender := caller; tx_value := attached; tx_time := now;
     tx_call := ResellToken t price;
     tx_world := open_world |}.

Definition start_tx (caller : address) (now t startPrice endTimestamp : Z) : Tx :=
  {| tx_sender := caller; tx_value := 0; tx_time := now;
     tx_call := StartAuction t startPrice endTimestamp;
     tx_world := open_world |}.

Definition transfer_tx (caller : address) (now : Z) (from to : address) (t : Z) : Tx :=
  {| tx_sender := caller; tx_value := 0; tx_time := now; tx_call := TransferFrom from to t;
     tx_world := open_world |}.

(** ** A concrete run

    A marketplace at address [market], deployed by [operator]: [seller]
    mints and lists asset 1 at price 100, [buyer] buys it, opens an auction
    on it and relists it (which hands custody back to the marketplace);
    [alice] bids 50 and [bob] outbids her with 60. *)
Module Demo.
Definition market : address := 1000.
Definition operator : address := 1.
Definition seller : address := 2.
Definition buyer : address := 3.
Definition alice : address := 4.
Definition bob : address := 5.

Definition fee : Z := initialListingPrice.

Definition listed : list Tx := [mint_tx seller fee 1 "ipfs://asset-1" 100].
Definition bought : list Tx := listed ++ [buy_tx buyer 100 2 1].
Definition opened : list Tx :=
  bought ++ [start_tx buyer 3 1 10 1000; relist_tx buyer fee 4 1 100].
Definition first_bid : list Tx := opened ++ [bid_tx alice 50 5 1].
Definition outbid : list Tx := first_bid ++ [bid_tx bob 60 6 1].

Definition after (txs : list Tx) : State := run market txs (deploy operator).

(** A second run, with the inherited [transferFrom]: after the purchase
    [seller] mints and lists asset 2, [buyer] hands asset 1 back to the
    marketplace by a direct registry transfer, and [alice] buys asset 1 a
    second time. *)
Definition handed_back : list Tx :=
  bought ++ [mint_tx seller fee 3 "ipfs://asset-2" 200; transfer_tx buyer 4 buyer market 1].
Definition bought_twice : list Tx := handed_back ++ [buy_tx alice 100 5 1].

(** A third run: after the purchase [buyer] gives asset 1 away to [alice]
    by a direct registry transfer. *)
Definition given_away : list Tx := bought ++ [transfer_tx buyer 3 buyer alice 1].
End Demo.

(** ** The remaining views and the JavaScript helper *)



(** [getListingPrice] of the contract variant without auctions. *)
Definition getListingPrice : M Z := s ← get; mret (listingPrice s).

(** The listings of ids [1 .. n] that satisfy [P], in id order. *)
Definition listings_where (P : MarketItem → Prop) `{∀ it, Decision (P it)}
    (s : State) (i : Z) (n : nat) : list MarketItem :=
  filter P (map (itemAt s) (seqZ (i + 1) (Z.of_nat n))).

Definition update_tx (caller : address) (attached now _listingPrice : Z) : Tx :=
  {| tx_sender := caller; tx_value := attached; tx_time := now;
     tx_call := UpdateListingPrice _listingPrice;
     tx_world := open_world |}.

Definition seturi_tx (caller : address) (now t : Z) (_tokenURI : string) : Tx :=
  {| tx_sender := caller; tx_value := 0; tx_time := now;
     tx_call := SetTokenURI t _tokenURI;
     tx_world := open_world |}.

(** ** [shortenAddress] of utils/shortenAddress.js

    Strings are lists of characters (code units). *)

(** [str.slice(start, end)]: a negative index counts from the end, both
    indices are clamped to the string, and an empty range gives the empty
    string. *)
Definition js_slice {A} (str : list A) (start end_ : Z) : list A :=
  let len := Z.of_nat (length str) in
  let from := if decide (start < 0) then Z.max (len + start) 0 else Z.min start len in
  let to := if decide (end_ < 0) then Z.max (len + end_) 0 else Z.min end_ len in
  take (Z.to_nat (to - from)) (drop (Z.to_nat from) str).

(** [str.slice(start)]: up to the end of the string. *)
Definition js_slice_from {A} (str : list A) (start : Z) : list A :=
  js_slice str start (Z.of_nat (length str)).

Definition dots : list ascii := ["."; "."; "."]%char.

(** The template literal of [shortenAddress]; a falsy argument (the empty
    string) gives the empty string.  The call to [console.log] is left out. *)
Definition shortenAddress (address : list ascii) : list ascii :=
  match address with
  | [] => []
  | _ => js_slice address 0 5 ++ dots ++ js_slice_from address (Z.of_nat (length address) - 4)
  end.

(** The asset a call can write to: the one it names, or for [createToken]
    the id it is about to allocate. *)
Definition touched (c : Call) (s : State) : option Z :=
  match c with
  | CreateToken _ _ => Some (wrap (_tokenIds s + 1))
  | ResellToken t _ | CreateMarketSale t | StartAuction t _ _ | FinalizeAuction t
  | PlaceBid t | WithdrawBid t | SetTokenURI t _
  | Approve _ t | TransferFrom _ _ t | SafeTransferFrom _ _ t => Some t
  | UpdateListingPrice _ | SetApprovalForAll _ _ => None
  end.

Definition is_created (ev : Effect) : bool :=
  match ev with
  | MarketItemCreated _ _ _ _ _ => true
  | Sent _ _ _ => false
  end.

(** ** Proof tooling *)

Ltac unfold_monad :=
  unfold no_result, Counters.current_tokenIds, Counters.current_itemsSold,
    Counters.increment_tokenIds, Counters.increment_itemsSold,
    Counters.decrement_itemsSold, _isApprovedOrOwner, _mint, _transfer, _setTokenURI,
    ownerOf, transfer, checked_add, checked_sub, require, get, ask, modify, emit, revert,
    mbind, M_bind, bind, mret, M_ret in *.

Ltac unfold_state :=
  unfold itemAt, auctionAt, bidAt, ownerAt, approvedAt, operatorAt,
    moveToken, clearApproval, putItem, putAuction, putBid, putOwner, putApproval, putOperator,
    set_tokenIds, set_itemsSold, set_listingPrice, set_idToMarketItem, set_auctions,
    set_bids, set_owners, set_tokenApprovals, set_operatorApprovals, set_tokenURIs,
    set_balance in *.

Ltac unfold_calls :=
  unfold createToken, createMarketItem, resellToken, createMarketSale, startAuction,
    finalizeAuction, placeBid, withdrawBid, updateListingPrice, setTokenURI,
    approve, setApprovalForAll, transferFrom, safeTransferFrom in *.

(** Case analysis on the keys of the map updates under a lookup. *)
Ltac split_keys :=
  repeat (match goal with
    | H : context [<[?k := _]> _ !! ?t] |- _ =>
        destruct (decide (k = t)) as [?|?];
        [subst; rewrite ?lookup_insert_eq in * | rewrite ?lookup_insert_ne in * by done]
    | |- context [<[?k := _]> _ !! ?t] =>
        destruct (decide (k = t)) as [?|?];
        [subst; rewrite ?lookup_insert_eq in * | rewrite ?lookup_insert_ne in * by done]
    end; cbn in * ).

(** Symbolic execution: expose every [require] as a case split. *)
Ltac steps := unfold_monad; unfold_state; cbn in *; repeat (case_decide; cbn in *).

Ltac ok_iff :=
  split;
  [ intros Hok; try discriminate; injection Hok as <- <-; intuition (auto; congruence)
  | intros Hok; try (exfalso; intuition congruence);
    repeat match goal with H : _ ∧ _ |- _ => destruct H end; subst; reflexivity ].

(** Closed goals over a concrete run, by evaluation. *)
Ltac by_compute :=
  vm_compute; repeat split;
  first [ reflexivity
        | let H := fresh in intros H; discriminate H
        | let H := fresh in intros H; apply H; reflexivity ].

Ltac wf_compute := vm_compute; repeat split; let H := fresh in intros H; discriminate H.

(** ** One equation per function: when it returns, and with which state *)

Lemma createMarketSale_ok t env s s' log :
  createMarketSale t env s = Ok () s' log ↔
  msg_value env = item_price (itemAt s t) ∧ ownerAt s t = this env ∧ this env ≠ 0 ∧
  msg_sender env ≠ 0 ∧
  (listingPrice s ≤ balance s ∧ takes_ether (world env) (owner s) = true) ∧
  s' = sale_state t (msg_sender env) s ∧ log = [Sent (owner s) (listingPrice s) s'].
Proof. unfold createMarketSale, sale_state, sale_item. steps; ok_iff. Qed.

Lemma resellToken_ok t price env s s' log :
  resellToken t price env s = Ok () s' log ↔
  item_owner (itemAt s t) = msg_sender env ∧ msg_value env = listingPrice s ∧
  _itemsSold s > 0 ∧ ownerAt s t = msg_sender env ∧ msg_sender env ≠ 0 ∧ this env ≠ 0 ∧
  s' = relist_state t price (msg_sender env) (this env) s ∧ log = [].
Proof. unfold resellToken, relist_state, relist_item. steps; ok_iff. Qed.

Lemma createToken_ok uri price env s id s' log :
  createToken uri price env s = Ok id s' log ↔
  msg_sender env ≠ 0 ∧ ownerAt s (wrap (_tokenIds s + 1)) = 0 ∧ price > 0 ∧
  msg_value env = listingPrice s ∧ this env ≠ 0 ∧
  id = wrap (_tokenIds s + 1) ∧
  s' = mint_state uri price (msg_sender env) (this env) s ∧
  log = [MarketItemCreated id (msg_sender env) (this env) price false].
Proof.
  unfold createToken, createMarketItem, mint_state, mint_item. steps.
  all: try rewrite lookup_insert_eq in *; cbn in *.
  all: try ok_iff.
Qed.

Lemma startAuction_ok t p e env s s' log :
  startAuction t p e env s = Ok () s' log ↔
  ownerAt s t ≠ 0 ∧ msg_sender env = ownerAt s t ∧
  s' = putAuction t (fresh_auction p e) s ∧ log = [].
Proof. unfold startAuction, fresh_auction. steps; ok_iff. Qed.

Lemma finalizeAuction_ok t env s s' log :
  finalizeAuction t env s = Ok () s' log ↔
  active (auctionAt s t) = true ∧ block_timestamp env >= endTimestamp (auctionAt s t) ∧
  ((highestBidder (auctionAt s t) = 0 ∧
    s' = putAuction t (closed_auction (auctionAt s t)) s ∧ log = []) ∨
   (highestBidder (auctionAt s t) ≠ 0 ∧ ownerAt s t = this env ∧ this env ≠ 0 ∧
    (highestBid (auctionAt s t) ≤ balance s ∧
     takes_ether (world env) (item_seller (itemAt s t)) = true) ∧
    s' = settled_state t s ∧
    log = [Sent (item_seller (itemAt s t)) (highestBid (auctionAt s t)) s'])).
Proof.
  unfold finalizeAuction, settled_state, closed_auction. steps.
  all: try rewrite lookup_insert_eq in *; cbn in *.
  all: repeat (case_decide; cbn in * ).
  all: try rewrite lookup_insert_eq in *; cbn in *.
  all: split;
    [ intros Hok; try discriminate; try (injection Hok as <- <-);
      intuition (auto; congruence)
    | intros (? & ? & [(? & ? & ?) | (? & ? & ? & [? ?] & ? & ?)]);
      subst; try reflexivity; try congruence; try lia ].
Qed.

Lemma placeBid_ok t env s s' log :
  placeBid t env s = Ok () s' log ↔
  active (auctionAt s t) = true ∧ block_timestamp env < endTimestamp (auctionAt s t) ∧
  msg_value env > highestBid (auctionAt s t) ∧
  (highestBidder (auctionAt s t) ≠ 0 →
     bidAt s t (highestBidder (auctionAt s t)) + highestBid (auctionAt s t) ≤ MAX_UINT256) ∧
  s' = bid_state t (msg_sender env) (msg_value env) s ∧ log = [].
Proof.
  unfold placeBid, bid_state. steps.
  all: split;
    [ intros Hok; try discriminate; try (injection Hok as <- <-);
      intuition (auto; congruence)
    | intros (? & ? & ? & ? & ? & ?); subst; try reflexivity; try tauto; try lia ].
Qed.

Lemma withdrawBid_ok t env s s' log :
  withdrawBid t env s = Ok () s' log ↔
  bidAt s t (msg_sender env) > 0 ∧
  (bidAt s t (msg_sender env) ≤ balance s ∧
   takes_ether (world env) (msg_sender env) = true) ∧
  s' = set_balance (balance s - bidAt s t (msg_sender env)) (putBid t (msg_sender env) 0 s) ∧
  log = [Sent (msg_sender env) (bidAt s t (msg_sender env)) s'].
Proof. unfold withdrawBid. steps; ok_iff. Qed.

Lemma updateListingPrice_ok p env s s' log :
  updateListingPrice p env s = Ok () s' log ↔
  owner s = msg_sender env ∧ s' = set_listingPrice p s ∧ log = [].
Proof. unfold updateListingPrice. steps; ok_iff. Qed.

Lemma setTokenURI_ok t u env s s' log :
  setTokenURI t u env s = Ok () s' log ↔
  ownerAt s t ≠ 0 ∧ msg_sender env = ownerAt s t ∧
  s' = set_tokenURIs (<[t := u]> (_tokenURIs s)) s ∧ log = [].
Proof. unfold setTokenURI. steps; ok_iff. Qed.

Lemma may_move_spec s spender t :
  bool_decide (spender = ownerAt s t) || operatorAt s (ownerAt s t) spender
  || bool_decide (approvedAt s t = spender) = true ↔ may_move s spender t.
Proof.
  unfold may_move. rewrite !orb_true_iff, !bool_decide_eq_true. tauto.
Qed.

Lemma transferFrom_ok from to t env s s' log :
  transferFrom from to t env s = Ok () s' log ↔
  ownerAt s t ≠ 0 ∧ may_move s (msg_sender env) t ∧ ownerAt s t = from ∧ to ≠ 0 ∧
  s' = moveToken t to s ∧ log = [].
Proof.
  rewrite <- may_move_spec. unfold transferFrom. steps; ok_iff.
Qed.

Lemma safeTransferFrom_ok from to t env s s' log :
  safeTransferFrom from to t env s = Ok () s' log ↔
  ownerAt s t ≠ 0 ∧ may_move s (msg_sender env) t ∧ ownerAt s t = from ∧ to ≠ 0 ∧
  takes_token (world env) to = true ∧
  s' = moveToken t to s ∧ log = [].
Proof.
  rewrite <- may_move_spec. unfold safeTransferFrom. steps; ok_iff.
Qed.

Lemma approve_ok to t env s s' log :
  approve to t env s = Ok () s' log ↔
  ownerAt s t ≠ 0 ∧ to ≠ ownerAt s t ∧
  (msg_sender env = ownerAt s t ∨ operatorAt s (ownerAt s t) (msg_sender env) = true) ∧
  s' = putApproval t to s ∧ log = [].
Proof. unfold approve. steps; ok_iff. Qed.

Lemma setApprovalForAll_ok operator approved env s s' log :
  setApprovalForAll operator approved env s = Ok () s' log ↔
  msg_sender env ≠ operator ∧ s' = putOperator (msg_sender env) operator approved s ∧ log = [].
Proof. unfold setApprovalForAll. steps; ok_iff. Qed.

(** ** Transactions: commit on success, roll back on failure *)

Lemma transact_failure self tx s s' e :
  transact self tx s = (s', Failure e) → s' = s.
Proof.
  unfold transact. destruct (_ && _); [congruence|].
  destruct (body self tx s); congruence.
Qed.

Lemma transact_success self tx s s' r log :
  transact self tx s = (s', Success r log) ↔
  (payable (tx_call tx) = true ∨ tx_value tx = 0) ∧ body self tx s = Ok r s' log.
Proof.
  unfold transact. destruct (payable (tx_call tx)); cbn.
  - destruct (body self tx s); split; intros; intuition congruence.
  - case_bool_decide; cbn.
    + split; [congruence | intros [[?|?] ?]; congruence].
    + destruct (body self tx s); split; intros; intuition (try congruence; try lia).
Qed.

(** The result of a call, by function. *)
Lemma body_ok self tx s r s' log :
  body self tx s = Ok r s' log →
  match tx_call tx with
  | CreateToken uri p => ∃ id, r = Some id ∧ createToken uri p (env_of self tx) (entry tx s) = Ok id s' log
  | ResellToken t p => r = None ∧ resellToken t p (env_of self tx) (entry tx s) = Ok () s' log
  | CreateMarketSale t => r = None ∧ createMarketSale t (env_of self tx) (entry tx s) = Ok () s' log
  | StartAuction t p e => r = None ∧ startAuction t p e (env_of self tx) (entry tx s) = Ok () s' log
  | FinalizeAuction t => r = None ∧ finalizeAuction t (env_of self tx) (entry tx s) = Ok () s' log
  | PlaceBid t => r = None ∧ placeBid t (env_of self tx) (entry tx s) = Ok () s' log
  | WithdrawBid t => r = None ∧ withdrawBid t (env_of self tx) (entry tx s) = Ok () s' log
  | UpdateListingPrice p => r = None ∧ updateListingPrice p (env_of self tx) (entry tx s) = Ok () s' log
  | SetTokenURI t u => r = None ∧ setTokenURI t u (env_of self tx) (entry tx s) = Ok () s' log
  | Approve to t => r = None ∧ approve to t (env_of self tx) (entry tx s) = Ok () s' log
  | SetApprovalForAll o a =>
      r = None ∧ setApprovalForAll o a (env_of self tx) (entry tx s) = Ok () s' log
  | TransferFrom from to t =>
      r = None ∧ transferFrom from to t (env_of self tx) (entry tx s) = Ok () s' log
  | SafeTransferFrom from to t =>
      r = None ∧ safeTransferFrom from to t (env_of self tx) (entry tx s) = Ok () s' log
  end.
Proof.
  unfold body, exec, no_result. destruct (tx_call tx); intros H.
  all: match type of H with match ?m with _ => _ end = _ => destruct m as [[] ? ?|] eqn:E end.
  all: try discriminate.
  all: try (injection H as <- <- <-; eauto).
Qed.

Ltac unfold_reads :=
  unfold itemAt, auctionAt, bidAt, ownerAt, approvedAt, operatorAt, may_move in *.

(** Reduce reads of a written state to reads of the state before.  The
    setters are left folded: the projections unfold them as they go. *)
Ltac frame :=
  unfold_reads; cbn in *;
  repeat (case_decide; cbn in * );
  repeat first
    [ rewrite lookup_insert_eq in *
    | rewrite lookup_insert_ne in * by congruence ];
  cbn in *.



(** Invert a successful call into its conditions and its final state. *)
Ltac use_ok E :=
  match type of E with
  | createToken _ _ _ _ = _ => apply createToken_ok in E
  | resellToken _ _ _ _ = _ => apply resellToken_ok in E
  | createMarketSale _ _ _ = _ => apply createMarketSale_ok in E
  | startAuction _ _ _ _ _ = _ => apply startAuction_ok in E
  | finalizeAuction _ _ _ = _ => apply finalizeAuction_ok in E
  | placeBid _ _ _ = _ => apply placeBid_ok in E
  | withdrawBid _ _ _ = _ => apply withdrawBid_ok in E
  | updateListingPrice _ _ _ = _ => apply updateListingPrice_ok in E
  | setTokenURI _ _ _ _ = _ => apply setTokenURI_ok in E
  | approve _ _ _ _ = _ => apply approve_ok in E
  | setApprovalForAll _ _ _ _ = _ => apply setApprovalForAll_ok in E
  | transferFrom _ _ _ _ _ = _ => apply transferFrom_ok in E
  | safeTransferFrom _ _ _ _ _ = _ => apply safeTransferFrom_ok in E
  end;
  repeat match type of E with
         | _ ∧ _ => let H := fresh "Hc" in destruct E as [H E]
         end.

Ltac by_call E C :=
  apply transact_success in E as [_ E]; apply body_ok in E;
  destruct (tx_call _) eqn:C;
  [ destruct E as (? & -> & E) | destruct E as [-> E] ..]; use_ok E.



Lemma transact_body_ok self tx s r s' log :
  (payable (tx_call tx) = true ∨ tx_value tx = 0) →
  body self tx s = Ok r s' log → transact self tx s = (s', Success r log).
Proof. intros. by apply transact_success. Qed.

Lemma transact_body_revert self tx s e d :
  (payable (tx_call tx) = true ∨ tx_value tx = 0) →
  body self tx s = Revert e d → transact self tx s = (s, Failure e).
Proof.
  intros Hp Hb. unfold transact. rewrite Hb.
  destruct Hp as [->| ->]; cbn; [done|].
  by rewrite andb_false_r.
Qed.

(** Where a precondition error fires, nothing has been written yet --
    except in [createToken]. *)
Lemma precondition_error_clean self tx s e d :
  body self tx s = Revert e d → is_precondition_error e = true →
  (∀ uri p, tx_call tx ≠ CreateToken uri p) → d = entry tx s.
Proof.
  unfold body. intros H He Hc. destruct (tx_call tx) eqn:C; [by destruct (Hc tokenURI price)|..].
  all: unfold exec in H.
  - unfold resellToken in H. steps. all: try congruence. all: injection H as <- <-; try discriminate; try done.
  - unfold createMarketSale in H. steps. all: try congruence. all: injection H as <- <-; try discriminate; try done.
  - unfold startAuction in H. steps. all: try congruence. all: injection H as <- <-; try discriminate; try done.
  - unfold finalizeAuction in H. steps. all: try congruence.
    all: try rewrite lookup_insert_eq in *; cbn in *.
    all: repeat (case_decide; cbn in * ).
    all: try congruence. all: injection H as <- <-; try discriminate; try done.
  - unfold placeBid in H. steps. all: try congruence. all: injection H as <- <-; try discriminate; try done.
  - unfold withdrawBid in H. steps. all: try congruence. all: injection H as <- <-; try discriminate; try done.
  - unfold updateListingPrice in H. steps. all: try congruence. all: injection H as <- <-; try discriminate; try done.
  - unfold setTokenURI in H. steps. all: try congruence. all: injection H as <- <-; try discriminate; try done.
  - unfold approve in H. steps. all: try congruence. all: injection H as <- <-; try discriminate; try done.
  - unfold setApprovalForAll in H. steps. all: try congruence. all: injection H as <- <-; try discriminate; try done.
  - unfold transferFrom in H. steps. all: try congruence. all: injection H as <- <-; try discriminate; try done.
  - unfold safeTransferFrom in H. steps. all: try congruence. all: injection H as <- <-; try discriminate; try done.
Qed.



Lemma finalize_inactive self caller now t s :
  active (auctionAt s t) = false →
  transact self (finalize_tx caller now t) s = (s, Failure NoActiveAuction).
Proof.
  intros Ha. apply (transact_body_revert _ _ _ _ (entry (finalize_tx caller now t) s)); [by right|].
  unfold body, exec, finalize_tx, finalizeAuction. steps; congruence.
Qed.

(** ** Counting the listings held by the marketplace *)

Lemma held_count_bounds self s n : 0 ≤ held_count self s n ≤ Z.of_nat n.
Proof. induction n as [|k IH]; cbn [held_count]; [lia|]. case_decide; lia. Qed.

Lemma held_count_ext self s s' n :
  (∀ id, 1 ≤ id ≤ Z.of_nat n → item_owner (itemAt s' id) = item_owner (itemAt s id)) →
  held_count self s' n = held_count self s n.
Proof.
  induction n as [|k IH]; intros H; cbn [held_count]; [done|].
  rewrite IH by (intros; apply H; lia). rewrite (H (Z.of_nat (S k))) by lia. done.
Qed.

Lemma held_count_update self s s' n t :
  (∀ id, id ≠ t → item_owner (itemAt s' id) = item_owner (itemAt s id)) →
  1 ≤ t ≤ Z.of_nat n →
  held_count self s' n
  = held_count self s n - ind (item_owner (itemAt s t) = self)
    + ind (item_owner (itemAt s' t) = self).
Proof.
  unfold ind. induction n as [|k IH]; intros H Ht; [lia|]. cbn [held_count].
  destruct (decide (t = Z.of_nat (S k))) as [->|Hne].
  - rewrite (held_count_ext self s s' k) by (intros; apply H; lia). lia.
  - rewrite IH by (done || lia). rewrite (H (Z.of_nat (S k))) by done. lia.
Qed.

Lemma held_count_succ self s s' n :
  (∀ id, 1 ≤ id ≤ Z.of_nat n → item_owner (itemAt s' id) = item_owner (itemAt s id)) →
  held_count self s' (S n)
  = held_count self s n + ind (item_owner (itemAt s' (Z.of_nat (S n))) = self).
Proof. intros H. cbn [held_count]. by rewrite (held_count_ext self s s' n). Qed.

Lemma held_count_lt self s n t :
  1 ≤ t ≤ Z.of_nat n → item_owner (itemAt s t) ≠ self → held_count self s n < Z.of_nat n.
Proof.
  induction n as [|k IH]; intros Ht Ho; [lia|]. cbn [held_count].
  pose proof (held_count_bounds self s k).
  destruct (decide (t = Z.of_nat (S k))) as [->|Hne].
  - rewrite decide_False by done. lia.
  - specialize (IH ltac:(lia) Ho). case_decide; lia.
Qed.

(** The invariant reads the counters, the listings, the balance, and of the
    registry only which assets have an owner. *)
Lemma Inv_frame self s s' :
  _tokenIds s' = _tokenIds s → _itemsSold s' = _itemsSold s →
  (∀ id, itemAt s' id = itemAt s id) →
  (∀ id, ownerAt s' id = 0 ↔ ownerAt s id = 0) →
  0 ≤ balance s' → Inv self s → Inv self s'.
Proof.
  intros Hn Hsold Hi Ho Hbal [].
  constructor; rewrite ?Hn, ?Hsold; try done.
  - intros id Hid. rewrite Hi, Ho. auto.
  - intros id Hid. rewrite Hi, Ho. auto.
  - intros id. rewrite Hi. auto.
  - rewrite (held_count_ext self s s') by (intros; by rewrite Hi). done.
Qed.

Lemma wrap_small x : 0 ≤ x ≤ MAX_UINT256 → wrap x = x.
Proof. unfold wrap, MAX_UINT256. intros. apply Z.mod_small. lia. Qed.

Lemma Inv_in_range_owner self s id :
  Inv self s → ownerAt s id ≠ 0 → 1 ≤ id ≤ _tokenIds s.
Proof.
  intros HI Ho. destruct (decide (1 ≤ id ≤ _tokenIds s)) as [|Hn]; [done|].
  by destruct (inv_fresh _ _ HI id Hn).
Qed.

Lemma Inv_in_range_item self s id :
  Inv self s → item_owner (itemAt s id) ≠ 0 → 1 ≤ id ≤ _tokenIds s.
Proof.
  intros HI Ho. destruct (decide (1 ≤ id ≤ _tokenIds s)) as [|Hn]; [done|].
  destruct (inv_fresh _ _ HI id Hn) as [Hz _]. by rewrite Hz in Ho.
Qed.

(** The sold counter is at least the number of minted listings that the
    marketplace does not hold. *)
Lemma Inv_sold_covers self s t :
  Inv self s → 1 ≤ t ≤ _tokenIds s → item_owner (itemAt s t) ≠ self → 0 < _itemsSold s.
Proof.
  intros HI Ht Ho. pose proof (inv_count _ _ HI) as Hc.
  pose proof (held_count_lt self s (Z.to_nat (_tokenIds s)) t) as Hlt.
  rewrite Z2Nat.id in Hlt by lia. specialize (Hlt Ht Ho). lia.
Qed.

Lemma Inv_mint self s uri price caller :
  self ≠ 0 → caller ≠ 0 → _tokenIds s < MAX_UINT256 → Inv self s →
  Inv self (mint_state uri price caller self s).
Proof.
  intros Hself Hc Hmax HI.
  destruct HI as [Hids Hsc Hbal Hfresh Hminted Hsold Hcount].
  assert (Hw : wrap (_tokenIds s + 1) = _tokenIds s + 1) by (apply wrap_small; lia).
  unfold mint_state. rewrite Hw.
  set (n := _tokenIds s) in *.
  constructor.
  - frame; lia.
  - by frame.
  - by frame.
  - intros id Hid. assert (id ≠ n + 1) by (frame; lia).
    destruct (Hfresh id) as [? ?]; [frame; lia|]. by frame.
  - intros id Hid. destruct (decide (id = n + 1)) as [->|Hne]; [by frame|].
    destruct (Hminted id) as (?&?&?); [frame; lia|]. by frame.
  - intros id Hid. destruct (decide (id = n + 1)) as [->|Hne]; [frame; split; congruence|].
    specialize (Hsold id). frame. apply Hsold. lia.
  - match goal with |- _ ≤ held_count self ?s' _ + _ =>
      replace (_tokenIds s') with (n + 1) by reflexivity;
      replace (_itemsSold s') with (_itemsSold s) by reflexivity;
      replace (Z.to_nat (n + 1)) with (S (Z.to_nat n)) by lia;
      rewrite (held_count_succ self s s')
    end.
    + replace (Z.of_nat (S (Z.to_nat n))) with (n + 1) by lia.
      unfold ind. frame; try congruence. subst n. lia.
    + intros id Hid. assert (id ≠ n + 1) by lia. by frame.
Qed.

Lemma Inv_sale self s t buyer :
  self ≠ 0 → buyer ≠ 0 → buyer ≠ self → _itemsSold s < MAX_UINT256 →
  ownerAt s t = self → listingPrice s ≤ balance s →
  Inv self s → Inv self (sale_state t buyer s).
Proof.
  intros Hself Hb Hbs Hmax Ho Hfee HI.
  assert (Ht : 1 ≤ t ≤ _tokenIds s) by (eapply Inv_in_range_owner; [done|congruence]).
  destruct HI as [Hids Hsc Hbal Hfresh Hminted Hsold Hcount].
  assert (Hw : wrap (_itemsSold s + 1) = _itemsSold s + 1) by (apply wrap_small; lia).
  constructor.
  - by frame.
  - replace (_itemsSold (sale_state t buyer s)) with (wrap (_itemsSold s + 1)) by reflexivity.
    lia.
  - frame; lia.
  - intros id Hid. assert (id ≠ t) by (frame; lia).
    destruct (Hfresh id) as [? ?]; [frame; lia|]. by frame.
  - intros id Hid. destruct (decide (id = t)) as [->|Hne].
    + destruct (Hminted t) as (?&?&?); [done|]. by frame.
    + destruct (Hminted id) as (?&?&?); [frame; lia|]. by frame.
  - intros id Hid. destruct (decide (id = t)) as [->|Hne]; [by frame|].
    specialize (Hsold id). frame. apply Hsold. lia.
  - replace (_tokenIds (sale_state t buyer s)) with (_tokenIds s) by reflexivity.
    replace (_itemsSold (sale_state t buyer s)) with (wrap (_itemsSold s + 1)) by reflexivity.
    rewrite (held_count_update self s _ _ t); [|intros id Hid; by frame|lia].
    unfold ind. frame; try congruence; lia.
Qed.

Lemma Inv_relist self s t price caller :
  self ≠ 0 → caller ≠ 0 → caller ≠ self →
  item_owner (itemAt s t) = caller → ownerAt s t ≠ 0 → _itemsSold s > 0 →
  Inv self s → Inv self (relist_state t price caller self s).
Proof.
  intros Hself Hc Hcs Hi Ho Hpos HI.
  assert (Ht : 1 ≤ t ≤ _tokenIds s) by (eapply Inv_in_range_item; [done|congruence]).
  destruct HI as [Hids Hsc Hbal Hfresh Hminted Hsold Hcount].
  assert (Hcnt : held_count self (relist_state t price caller self s) (Z.to_nat (_tokenIds s))
                 = held_count self s (Z.to_nat (_tokenIds s)) + 1).
  { rewrite (held_count_update self s _ _ t); [|intros id Hid; by frame|lia].
    unfold ind. frame; try congruence. lia. }
  constructor.
  - by frame.
  - replace (_itemsSold (relist_state t price caller self s)) with (_itemsSold s - 1)
      by reflexivity. lia.
  - by frame.
  - intros id Hid. assert (id ≠ t) by (frame; lia).
    destruct (Hfresh id) as [? ?]; [frame; lia|]. by frame.
  - intros id Hid. destruct (decide (id = t)) as [->|Hne].
    + destruct (Hminted t) as (?&?&?); [done|]. by frame.
    + destruct (Hminted id) as (?&?&?); [frame; lia|]. by frame.
  - intros id Hid. destruct (decide (id = t)) as [->|Hne]; [frame; split; congruence|].
    specialize (Hsold id). frame. apply Hsold. lia.
  - replace (_tokenIds (relist_state t price caller self s)) with (_tokenIds s) by reflexivity.
    rewrite Hcnt.
    replace (_itemsSold (relist_state t price caller self s)) with (_itemsSold s - 1)
      by reflexivity.
    lia.
Qed.

(** A registry transfer of an owned asset to a non-zero address keeps the
    set of owned assets. *)
Lemma moveToken_owned t to s id :
  ownerAt s t ≠ 0 → to ≠ 0 → ownerAt (moveToken t to s) id = 0 ↔ ownerAt s id = 0.
Proof.
  intros Ho Hto. destruct (decide (id = t)) as [->|Hne]; frame; split; congruence.
Qed.

Lemma Inv_settled self s t :
  self ≠ 0 → highestBidder (auctionAt s t) ≠ 0 → ownerAt s t = self →
  highestBid (auctionAt s t) ≤ balance s →
  Inv self s → Inv self (settled_state t s).
Proof.
  intros Hself Hb Ho Hbal HI. apply (Inv_frame self s); try done.
  - intros id. apply (moveToken_owned t (highestBidder (auctionAt s t))
                        (putAuction t (closed_auction (auctionAt s t)) s) id); [|done].
    change (ownerAt s t ≠ 0). congruence.
  - cbn. lia.
Qed.

Lemma Inv_entry self tx s : 0 ≤ tx_value tx → Inv self s → Inv self (entry tx s).
Proof.
  intros Hv HI. apply (Inv_frame self s); try done. cbn. destruct HI. lia.
Qed.

(** Every transaction keeps the invariant, as long as the two counters can
    still be incremented without wrapping. *)
Lemma transact_Inv self tx s :
  self ≠ 0 → wf_tx self tx → _tokenIds s < MAX_UINT256 → _itemsSold s < MAX_UINT256 →
  Inv self s → Inv self (transact self tx s).1.
Proof.
  intros Hself (Hs0 & Hss & Hv) Hmax Hmax' HI.
  destruct (transact self tx s) as [s' [r log|e]] eqn:E; cbn;
    [|by apply transact_failure in E as ->].
  pose proof (Inv_entry self tx s (proj1 Hv) HI) as HE.
  pose proof (inv_balance _ _ HE) as HbE.
  by_call E C.
  - subst. apply Inv_mint; try done.
  - subst. apply Inv_relist; try done. cbn in *. congruence.
  - subst. apply Inv_sale; try done. tauto.
  - subst. by apply (Inv_frame self (entry tx s)).
  - destruct E as [(?&->&?)|(?&?&?&?&->&?)].
    + by apply (Inv_frame self (entry tx s)).
    + apply Inv_settled; try done. tauto.
  - subst. apply (Inv_frame self (entry tx s)); try (by frame). 
  - subst. apply (Inv_frame self (entry tx s)); try done. cbn in *. lia.
  - subst. by apply (Inv_frame self (entry tx s)).
  - subst. by apply (Inv_frame self (entry tx s)).
  - subst. by apply (Inv_frame self (entry tx s)).
  - subst. by apply (Inv_frame self (entry tx s)).
  - subst. apply (Inv_frame self (entry tx s)); try done.
    intros id. by apply moveToken_owned.
  - subst. apply (Inv_frame self (entry tx s)); try done.
    intros id. by apply moveToken_owned.
Qed.

Lemma transact_tokenIds self tx s :
  0 ≤ _tokenIds s < MAX_UINT256 →
  _tokenIds s ≤ _tokenIds (transact self tx s).1 ≤ _tokenIds s + 1.
Proof.
  intros Hr.
  destruct (transact self tx s) as [s' [r log|e]] eqn:E; cbn;
    [|apply transact_failure in E as ->; lia].
  by_call E C.
  all: try (destruct E as [(?&?&?)|(?&?&?&?&?&?)]).
  all: subst; try (frame; lia).
  unfold mint_state. rewrite wrap_small by (cbn; lia). frame. lia.
Qed.

Lemma transact_itemsSold self tx s :
  0 ≤ _itemsSold s < MAX_UINT256 →
  _itemsSold (transact self tx s).1 ≤ _itemsSold s + 1.
Proof.
  intros Hr.
  destruct (transact self tx s) as [s' [r log|e]] eqn:E; cbn;
    [|apply transact_failure in E as ->; lia].
  by_call E C.
  all: try (destruct E as [(?&?&?)|(?&?&?&?&?&?)]).
  all: subst; try (frame; lia).
  replace (_itemsSold (sale_state tokenId (msg_sender (env_of self tx)) (entry tx s)))
    with (wrap (_itemsSold s + 1)) by reflexivity.
  rewrite wrap_small by lia. lia.
Qed.

Lemma deploy_Inv self operator : Inv self (deploy operator).
Proof.
  constructor; cbn [deploy _tokenIds _itemsSold balance held_count Z.to_nat].
  - lia.
  - lia.
  - lia.
  - intros id _. unfold itemAt, ownerAt. cbn [deploy idToMarketItem _owners].
    by rewrite !lookup_empty.
  - intros; lia.
  - intros; lia.
  - reflexivity.
Qed.

Lemma run_Inv self txs : ∀ s,
  self ≠ 0 → Forall (wf_tx self) txs →
  _tokenIds s + Z.of_nat (length txs) ≤ MAX_UINT256 →
  _itemsSold s + Z.of_nat (length txs) ≤ MAX_UINT256 →
  Inv self s →
  Inv self (run self txs s) ∧
  _tokenIds (run self txs s) ≤ _tokenIds s + Z.of_nat (length txs) ∧
  _itemsSold (run self txs s) ≤ _itemsSold s + Z.of_nat (length txs).
Proof.
  induction txs as [|tx txs IH]; intros s Hself Hwf Hlen Hlen' HI; cbn [run length].
  - split; [done|lia].
  - inversion Hwf as [|? ? Htx Hrest]; subst. cbn [length] in Hlen, Hlen'.
    assert (Hr : 0 ≤ _tokenIds s < MAX_UINT256) by (destruct HI; lia).
    assert (Hr' : 0 ≤ _itemsSold s < MAX_UINT256) by (destruct HI; lia).
    pose proof (transact_tokenIds self tx s Hr) as Hstep.
    pose proof (transact_itemsSold self tx s Hr') as Hstep'.
    destruct (IH (transact self tx s).1) as (HI' & Hn' & Hm'); try done.
    + lia.
    + lia.
    + apply transact_Inv; try done; lia.
    + split; [done|lia].
Qed.

(** The states of the marketplace: any sequence of well-formed calls from
    deployment, shorter than the range of the counters. *)
Lemma reachable_Inv self operator txs :
  self ≠ 0 → Forall (wf_tx self) txs → Z.of_nat (length txs) < MAX_UINT256 →
  Inv self (run self txs (deploy operator)) ∧
  _tokenIds (run self txs (deploy operator)) < MAX_UINT256 ∧
  _itemsSold (run self txs (deploy operator)) < MAX_UINT256.
Proof.
  intros Hself Hwf Hlen.
  destruct (run_Inv self txs (deploy operator)) as (HI & Hn & Hm); try done.
  - cbn. lia.
  - cbn. lia.
  - apply deploy_Inv.
  - split; [done|]. cbn in Hn, Hm. lia.
Qed.

(** ** The loop of [fetchMarketItems] *)

Lemma held_items_length self s n :
  Z.of_nat (length (held_items self s 0 n)) = held_count self s n.
Proof.
  unfold held_items. induction n as [|k IH]; [done|].
  rewrite seqZ_S, map_app, filter_app, length_app, Nat2Z.inj_add, IH.
  cbn [held_count map]. replace (0 + 1 + Z.of_nat k) with (Z.of_nat (S k)) by lia.
  rewrite filter_cons, filter_nil. case_decide; done.
Qed.

Lemma held_items_cons self s i n :
  held_items self s i (S n)
  = (if decide (item_owner (itemAt s (i + 1)) = self) then [itemAt s (i + 1)] else [])
    ++ held_items self s (i + 1) n.
Proof.
  unfold held_items. rewrite seqZ_cons by lia. cbn [map].
  rewrite filter_cons.
  replace (Z.succ (i + 1)) with (i + 1 + 1) by lia.
  replace (Z.pred (Z.of_nat (S n))) with (Z.of_nat n) by lia.
  by case_decide.
Qed.

(** The loop of [fetchMarketItems], started at index [i] with the array
    filled up to [pre]: it appends the held listings of ids [i+1 .. i+n]. *)
Lemma fetch_loop env s n : ∀ i pre m,
  (length (held_items (this env) s i n) ≤ m)%nat →
  for_range n i
    (λ i acc,
       if decide (item_owner (itemAt s (i + 1)) = this env) then
         let currentId := i + 1 in
         let currentItem := itemAt s currentId in
         items' ← array_store acc.1 acc.2 currentItem;
         mret (items', acc.2 + 1)
       else mret acc)
    (pre ++ replicate m zeroItem, Z.of_nat (length pre)) env s
  = Ok (pre ++ held_items (this env) s i n
          ++ replicate (m - length (held_items (this env) s i n)) zeroItem,
        Z.of_nat (length pre + length (held_items (this env) s i n))) s [].
Proof.
  unfold array_store, revert, mbind, M_bind, bind, mret, M_ret.
  induction n as [|k IH]; intros i pre m Hm.
  - cbn. rewrite Nat.sub_0_r, Nat.add_0_r. done.
  - rewrite held_items_cons in *. cbn [for_range].
    unfold mbind, M_bind, bind, mret, M_ret.
    destruct (decide (item_owner (itemAt s (i + 1)) = this env)) as [Hh|Hh].
    + cbn [app length] in *. destruct m as [|m']; [lia|].
      cbn [fst snd].
      rewrite decide_True by (rewrite length_app; cbn; lia).
      cbn [app]. rewrite Nat2Z.id.
      replace (<[length pre:=itemAt s (i + 1)]> (pre ++ replicate (S m') zeroItem))
        with ((pre ++ [itemAt s (i + 1)]) ++ replicate m' zeroItem).
      2:{ rewrite insert_app_r_alt by lia. rewrite Nat.sub_diag. cbn.
          by rewrite <- app_assoc. }
      replace (Z.of_nat (length pre) + 1) with (Z.of_nat (length (pre ++ [itemAt s (i + 1)])))
        by (rewrite length_app; cbn; lia).
      assert (Hm' : (length (held_items (this env) s (i + 1) k) ≤ m')%nat) by lia.
      rewrite (IH (i + 1) (pre ++ [itemAt s (i + 1)]) m' Hm'). rewrite length_app. cbn [length app].
      rewrite <- app_assoc. cbn [app Nat.sub].
      by replace (length pre + 1 + length (held_items (this env) s (i + 1) k))%nat
        with (length pre + S (length (held_items (this env) s (i + 1) k)))%nat by lia.
    + cbn [app length] in *. rewrite IH by lia. done.
Qed.
(** [fetchMarketItems] when the array is at least as long as the number of
    held listings: the held listings in id order, then zero entries. *)
Lemma fetchMarketItems_padded env s :
  0 ≤ _itemsSold s ≤ _tokenIds s →
  _tokenIds s - _itemsSold s ≤ MAX_ARRAY_LENGTH →
  held_count (this env) s (Z.to_nat (_tokenIds s)) ≤ _tokenIds s - _itemsSold s →
  fetchMarketItems env s
  = Ok (held_items (this env) s 0 (Z.to_nat (_tokenIds s))
          ++ replicate (Z.to_nat (_tokenIds s - _itemsSold s
                                  - held_count (this env) s (Z.to_nat (_tokenIds s))))
               zeroItem) s [].
Proof.
  intros Hr Hfit Hc. rewrite <- held_items_length in Hc.
  pose proof (fetch_loop env s (Z.to_nat (_tokenIds s)) 0 []
                (Z.to_nat (_tokenIds s - _itemsSold s))) as Hloop.
  cbn [app length] in Hloop. change (Z.of_nat 0) with 0 in Hloop.
  unfold fetchMarketItems, checked_sub, new_items.
  unfold array_store, revert, ask, get, mbind, M_bind, bind, mret, M_ret in *.
  rewrite decide_True by lia. cbn beta. rewrite decide_True by lia. cbn beta.
  rewrite Hloop by lia. cbn [fst app]. rewrite <- held_items_length.
  repeat f_equal. lia.
Qed.

Lemma fetchMarketItems_exact env s :
  0 ≤ _tokenIds s →
  _tokenIds s - _itemsSold s ≤ MAX_ARRAY_LENGTH →
  held_count (this env) s (Z.to_nat (_tokenIds s)) + _itemsSold s = _tokenIds s →
  fetchMarketItems env s = Ok (held_items (this env) s 0 (Z.to_nat (_tokenIds s))) s [].
Proof.
  intros Hn Hfit Hc.
  pose proof (held_count_bounds (this env) s (Z.to_nat (_tokenIds s))).
  rewrite fetchMarketItems_padded by lia.
  replace (_tokenIds s - _itemsSold s - held_count (this env) s (Z.to_nat (_tokenIds s)))
    with 0 by lia.
  cbn. by rewrite app_nil_r.
Qed.

(** ** Further facts used by the main theorems *)

Lemma withdraw_nothing self caller now t s :
  bidAt s t caller = 0 →
  transact self (withdraw_tx caller now t) s = (s, Failure NothingToWithdraw).
Proof.
  intros Hb.
  apply (transact_body_revert _ _ _ _ (entry (withdraw_tx caller now t) s)); [by right|].
  revert Hb. unfold body, exec, withdraw_tx, withdrawBid. steps; intros; first [done | lia].
Qed.

Lemma held_items_elem self s n it :
  it ∈ held_items self s 0 n ↔
  item_owner it = self ∧ ∃ id, 1 ≤ id ≤ Z.of_nat n ∧ it = itemAt s id.
Proof.
  unfold held_items. rewrite list_elem_of_filter, list_elem_of_fmap.
  split.
  - intros [Ho (id & -> & Hid)]. apply elem_of_seqZ in Hid. split; [done|]. exists id. split; [lia|done].
  - intros [Ho (id & Hid & ->)]. split; [done|]. exists id. split; [done|]. apply elem_of_seqZ. lia.
Qed.

(** What a transaction returns and how it moves the id counter. *)
Lemma transact_minted self tx s :
  0 ≤ _tokenIds s < MAX_UINT256 →
  match (transact self tx s).2 with
  | Success (Some id) _ => id = _tokenIds s + 1 ∧ _tokenIds (transact self tx s).1 = id
  | _ => _tokenIds (transact self tx s).1 = _tokenIds s
  end.
Proof.
  intros Hr.
  destruct (transact self tx s) as [s' [r log|e]] eqn:E; cbn;
    [|by apply transact_failure in E as ->].
  by_call E C.
  all: try (destruct E as [(?&?&?)|(?&?&?&?&?&?)]).
  all: subst; try (by frame).
  unfold mint_state. rewrite wrap_small by (cbn; lia). by frame.
Qed.

Lemma minted_ids_seq self txs : ∀ s,
  0 ≤ _tokenIds s → _tokenIds s + Z.of_nat (length txs) ≤ MAX_UINT256 →
  minted_ids self txs s
  = seqZ (_tokenIds s + 1) (_tokenIds (run self txs s) - _tokenIds s).
Proof.
  induction txs as [|tx txs IH]; intros s H0 Hlen; cbn [minted_ids run length] in *.
  - by rewrite Z.sub_diag.
  - assert (Hr : 0 ≤ _tokenIds s < MAX_UINT256) by lia.
    pose proof (transact_minted self tx s Hr) as Hm.
    pose proof (transact_tokenIds self tx s Hr) as Hb.
    assert (Hgrow : _tokenIds (transact self tx s).1
                    ≤ _tokenIds (run self txs (transact self tx s).1)).
    { clear -Hb Hr Hlen. revert Hb Hlen. generalize (transact self tx s).1. intros s1 Hb Hlen.
      assert (Hx : 0 ≤ _tokenIds s1 ∧ _tokenIds s1 + Z.of_nat (length txs) ≤ MAX_UINT256) by lia.
      clear Hb Hlen Hr. revert s1 Hx.
      induction txs as [|tx' txs' IH']; intros s1 Hx; cbn [run length] in *; [lia|].
      pose proof (transact_tokenIds self tx' s1 ltac:(lia)).
      etrans; [|apply IH'; lia]. lia. }
    destruct ((transact self tx s).2) as [[id|] log|e].
    + destruct Hm as [-> Hm]. rewrite IH by lia. rewrite Hm.
      rewrite (seqZ_cons (_tokenIds s + 1)) by lia. f_equal. f_equal; lia.
    + rewrite IH by lia. rewrite Hm. done.
    + rewrite IH by lia. rewrite Hm. done.
Qed.

Lemma relist_state_reads t price caller self s :
  itemAt (relist_state t price caller self s) t = relist_item t price caller self s ∧
  ownerAt (relist_state t price caller self s) t = self ∧
  listingPrice (relist_state t price caller self s) = listingPrice s ∧
  owner (relist_state t price caller self s) = owner s ∧
  balance (relist_state t price caller self s) = balance s.
Proof. repeat split; by frame. Qed.

Lemma sale_state_reads t buyer s :
  itemAt (sale_state t buyer s) t = sale_item t buyer s ∧
  ownerAt (sale_state t buyer s) t = buyer ∧
  _itemsSold (sale_state t buyer s) = wrap (_itemsSold s + 1) ∧
  balance (sale_state t buyer s) = balance s - listingPrice s.
Proof. repeat split; by frame. Qed.

Lemma entry_reads tx s :
  (∀ id, itemAt (entry tx s) id = itemAt s id) ∧
  (∀ id, ownerAt (entry tx s) id = ownerAt s id) ∧
  (∀ id, auctionAt (entry tx s) id = auctionAt s id) ∧
  (∀ id who, bidAt (entry tx s) id who = bidAt s id who) ∧
  listingPrice (entry tx s) = listingPrice s ∧
  owner (entry tx s) = owner s ∧
  _tokenIds (entry tx s) = _tokenIds s ∧
  _itemsSold (entry tx s) = _itemsSold s ∧
  balance (entry tx s) = balance s + tx_value tx.
Proof. repeat split. Qed.

Lemma bid_state_reads t bidder amount s :
  highestBidder (auctionAt (bid_state t bidder amount s) t) = bidder ∧
  highestBid (auctionAt (bid_state t bidder amount s) t) = amount ∧
  active (auctionAt (bid_state t bidder amount s) t) = active (auctionAt s t) ∧
  endTimestamp (auctionAt (bid_state t bidder amount s) t) = endTimestamp (auctionAt s t) ∧
  bidAt (bid_state t bidder amount s) t bidder = amount ∧
  (∀ other, other ≠ bidder →
     bidAt (bid_state t bidder amount s) t other
     = if decide (other = highestBidder (auctionAt s t) ∧ other ≠ 0)
       then bidAt s t other + highestBid (auctionAt s t)
       else bidAt s t other) ∧
  balance (bid_state t bidder amount s) = balance s.
Proof.
  repeat split; try (by frame).
  intros other Hne. case_decide as Hd.
  - destruct Hd as [-> Hz]. by frame.
  - unfold bid_state. case_decide as Hl.
    + assert (other ≠ highestBidder (auctionAt s t)) by (intros ->; by apply Hd). by frame.
    + by frame.
Qed.

Lemma transact_bid_ok self caller attached now t s s' r log :
  transact self (bid_tx caller attached now t) s = (s', Success r log) →
  s' = bid_state t caller attached (entry (bid_tx caller attached now t) s) ∧
  active (auctionAt s t) = true ∧ now < endTimestamp (auctionAt s t) ∧
  attached > highestBid (auctionAt s t) ∧ r = None ∧ log = [].
Proof.
  intros H. apply transact_success in H as [_ H]. apply body_ok in H as [-> H].
  apply placeBid_ok in H. cbn in H. tauto.
Qed.

Lemma transact_withdraw_in w self caller now t s :
  takes_ether w caller = true → 0 < bidAt s t caller ≤ balance s →
  transact self (in_world w (withdraw_tx caller now t)) s
  = (set_balance (balance s - bidAt s t caller) (putBid t caller 0 s),
     Success None
       [Sent caller (bidAt s t caller)
          (set_balance (balance s - bidAt s t caller) (putBid t caller 0 s))]).
Proof.
  intros Hw Hb. apply transact_body_ok; [by right|].
  assert (E : withdrawBid t (env_of self (in_world w (withdraw_tx caller now t)))
                (entry (withdraw_tx caller now t) s)
              = Ok () (set_balance (balance s - bidAt s t caller) (putBid t caller 0 s))
                  [Sent caller (bidAt s t caller)
                     (set_balance (balance s - bidAt s t caller) (putBid t caller 0 s))]).
  { apply withdrawBid_ok. revert Hb. unfold withdraw_tx. unfold entry. unfold_state. cbn.
    rewrite !Z.add_0_r. intros Hb. repeat split; first [lia | done]. }
  unfold body.
  change (exec (tx_call (in_world w (withdraw_tx caller now t))))
    with (no_result (withdrawBid t)).
  change (entry (in_world w (withdraw_tx caller now t)) s)
    with (entry (withdraw_tx caller now t) s).
  unfold no_result. by rewrite E.
Qed.

Lemma transact_withdraw_ok self caller now t s :
  0 < bidAt s t caller ≤ balance s →
  transact self (withdraw_tx caller now t) s
  = (set_balance (balance s - bidAt s t caller) (putBid t caller 0 s),
     Success None
       [Sent caller (bidAt s t caller)
          (set_balance (balance s - bidAt s t caller) (putBid t caller 0 s))]).
Proof. intros Hb. by apply (transact_withdraw_in open_world). Qed.

(** A call that carries no value enters on the state as it is. *)
Lemma entry_no_value tx s : tx_value tx = 0 → entry tx s = s.
Proof. intros H. unfold entry, set_balance. rewrite H, Z.add_0_r. by destruct s. Qed.
(** * The specification, claim by claim *)

Import Demo.

Lemma demo_wf txs :
  txs = outbid → Forall (wf_tx market) txs ∧ Z.of_nat (length txs) < MAX_UINT256.
Proof.
  intros ->. split; [|by_compute].
  cbv [outbid first_bid opened bought listed app].
  repeat (constructor; [wf_compute|]). constructor.
Qed.

(** ** Escrow accounting *)

(** C1 (the code departs from it): escrow conservation asks that what the
    escrow table owes never exceeds what bidders attached.  [placeBid]
    writes the leader's own bid into the leader's escrow entry and, when the
    leader is outbid, adds the same bid a second time.  So for every bidder
    [a] who becomes leader with [v] and is then outbid by another bidder,
    the escrow entry of [a] is [2 * v], and [withdrawBid] pays [a] exactly
    [2 * v] -- not the [v] that was attached -- and zeroes the entry. *)

Theorem outbid_credit_counts_bid_twice self a b v w now1 now2 t s s1 s2 r1 r2 l1 l2 :
  a ≠ 0 → a ≠ b →
  transact self (bid_tx a v now1 t) s = (s1, Success r1 l1) →
  transact self (bid_tx b w now2 t) s1 = (s2, Success r2 l2) →
  bidAt s1 t a = v ∧
  bidAt s2 t a = 2 * v ∧
  balance s2 = balance s + v + w ∧
  (0 < v → 2 * v ≤ balance s2 → ∀ now3,
     ∃ s3, transact self (withdraw_tx a now3 t) s2 = (s3, Success None [Sent a (2 * v) s3]) ∧
           bidAt s3 t a = 0 ∧ balance s3 = balance s2 - 2 * v).
Proof.
  intros Ha Hab E1 E2.
  apply transact_bid_ok in E1 as (-> & _). apply transact_bid_ok in E2 as (-> & _).
  set (s0 := entry (bid_tx a v now1 t) s).
  destruct (bid_state_reads t a v s0) as (Hl1 & Hh1 & _ & _ & Hb1 & _ & Hbal1).
  set (s1 := bid_state t a v s0) in *.
  set (s1e := entry (bid_tx b w now2 t) s1).
  destruct (bid_state_reads t b w s1e) as (_ & _ & _ & _ & _ & Hb2 & Hbal2).
  set (s2 := bid_state t b w s1e) in *.
  assert (H2 : bidAt s2 t a = 2 * v).
  { rewrite Hb2 by done. subst s1e.
    destruct (entry_reads (bid_tx b w now2 t) s1) as (_ & _ & Ha1 & Hbb & _).
    rewrite Ha1, Hbb, Hl1, Hh1, Hb1. rewrite decide_True by done. lia. }
  split; [done|]. split; [done|]. split.
  { rewrite Hbal2. subst s1e. cbn [entry set_balance balance bid_tx tx_value].
    rewrite Hbal1. subst s0. cbn. lia. }
  intros Hv Hbal now3.
  exists (set_balance (balance s2 - 2 * v) (putBid t a 0 s2)). split; [|split].
  - rewrite transact_withdraw_ok by lia. by rewrite H2.
  - unfold bidAt, set_balance, putBid, set_bids. cbn. by rewrite lookup_insert_eq.
  - reflexivity.
Qed.


Lemma outbid_credit_counts_bid_twice_witness :
  bidAt (after outbid) 1 alice = 2 * 50 ∧
  ∃ s3, transact market (withdraw_tx alice 7 1) (after outbid)
        = (s3, Success None [Sent alice (2 * 50) s3]) ∧
        bidAt s3 1 alice = 0.
Proof.
  destruct (outbid_credit_counts_bid_twice market alice bob 50 60 5 6 1
              (after opened) (after first_bid) (after outbid) None None [] [])
    as (_ & H2 & _ & H3); [done | done | by_compute | by_compute |].
  split; [exact H2|].
  destruct (H3 ltac:(lia) ltac:(by_compute) 7) as (s3 & E & Hz & _).
  exists s3. by split.
Defined.

(** ** Bidding *)

(** C2: [placeBid] fails with NoActiveAuction when the auction is not
    active, with AuctionEnded when the block time is not before the end
    time, with BidTooLow when the attached value does not exceed the highest
    bid (a tie is rejected); a failed bid leaves the state as it was.  On
    success the previous leader, if any, is credited the previous highest
    bid, then the caller becomes the leader with the attached value and the
    caller's own escrow entry is overwritten with it.  Along any sequence of
    calls the accepted bids of one auction are strictly increasing. *)




(** ** Failure atomicity *)

(** C3, as the code has it: a call that fails leaves the whole state as it
    was before the call, because a revert undoes the call's writes.  In
    every function but [createToken] each of the marketplace's own
    precondition errors is raised before anything is written;
    [createToken] advances the id counter and mints before
    [createMarketItem] checks the price and the fee. *)
Theorem failure_atomicity self tx s e :
  (transact self tx s).2 = Failure e →
  (transact self tx s).1 = s ∧
  (∀ d, body self tx s = Revert e d → is_precondition_error e = true →
        (∀ uri p, tx_call tx ≠ CreateToken uri p) → d = entry tx s).
Proof.
  intros H. split.
  - destruct (transact self tx s) as [s' r] eqn:E. cbn in *. subst r.
    by apply transact_failure in E.
  - intros d Hb He Hc. by eapply precondition_error_clean.
Qed.

Lemma failure_atomicity_witness :
  (transact market (bid_tx bob 50 6 1) (after first_bid)).1 = after first_bid.
Proof.
  apply (failure_atomicity market (bid_tx bob 50 6 1) (after first_bid) BidTooLow).
  by_compute.
Defined.

(** C3, counterexample to "the error is raised before any mutation": minting
    with price 0 reaches the InvalidPrice check only after the id counter
    went from 0 to 1 and asset 1 was minted to the caller. *)
Lemma mint_checks_after_writing :
  ∃ d, body market (mint_tx seller fee 1 "ipfs://asset-1" 0) (deploy operator)
       = Revert InvalidPrice d ∧
       is_precondition_error InvalidPrice = true ∧
       _tokenIds d = 1 ∧ ownerAt d 1 = seller ∧
       _tokenIds (entry (mint_tx seller fee 1 "ipfs://asset-1" 0) (deploy operator)) = 0 ∧
       d ≠ entry (mint_tx seller fee 1 "ipfs://asset-1" 0) (deploy operator).
Proof.
  eexists. split; [by_compute|]. repeat split; by_compute.
Qed.

(** ** Ordering of writes and payments *)

(** C4: whenever a call pays ether out, the call is [withdrawBid],
    [finalizeAuction] or [createMarketSale], and the storage a recipient
    would see during the payment is already the final storage of the call:
    every write precedes the transfer.  Re-entering at that point is
    refused: a second [withdrawBid] of the same caller finds nothing to
    withdraw, a second [finalizeAuction] finds no active auction, and a
    second [createMarketSale] of the asset reverts. *)

Theorem transfer_after_mutation self tx s s' r log to amount seen :
  transact self tx s = (s', Success r log) →
  Sent to amount seen ∈ log →
  seen = s' ∧
  match tx_call tx with
  | WithdrawBid t =>
      ∀ now, transact self (withdraw_tx (tx_sender tx) now t) seen
             = (seen, Failure NothingToWithdraw)
  | FinalizeAuction t =>
      ∀ caller now, transact self (finalize_tx caller now t) seen
                    = (seen, Failure NoActiveAuction)
  | CreateMarketSale t =>
      tx_sender tx ≠ self →
      ∀ caller value now, ∃ e, transact self (buy_tx caller value now t) seen = (seen, Failure e)
  | _ => False
  end.
Proof.
  intros E Hin. by_call E C.
  all: try (destruct E as [(?&?&?)|(?&?&?&?&?&?)]).
  all: subst log; try (by apply elem_of_nil in Hin).
  all: apply list_elem_of_singleton in Hin; try discriminate.
  all: injection Hin as -> -> ->.
  all: split; [done|].
  - intros Hne caller value now.
    destruct (transact self (buy_tx caller value now tokenId) s') as [s2 [r2 log2|e]] eqn:E2.
    + exfalso. apply transact_success in E2 as [_ E2]. apply body_ok in E2 as [_ E2].
      apply createMarketSale_ok in E2. destruct E2 as (_ & E2 & Hs & _).
      subst s'. frame. congruence.
    + exists e. apply transact_failure in E2. by rewrite E2.
  - intros caller now. apply finalize_inactive. subst s'. by frame.
  - intros now. apply withdraw_nothing. subst s'. by frame.
Qed.


Lemma transfer_after_mutation_witness :
  transact market (withdraw_tx alice 8 1)
    (transact market (withdraw_tx alice 7 1) (after outbid)).1
  = ((transact market (withdraw_tx alice 7 1) (after outbid)).1,
     Failure NothingToWithdraw).
Proof.
  pose proof (transfer_after_mutation market (withdraw_tx alice 7 1) (after outbid)
                (transact market (withdraw_tx alice 7 1) (after outbid)).1 None
                [Sent alice 100 (transact market (withdraw_tx alice 7 1) (after outbid)).1]
                alice 100 (transact market (withdraw_tx alice 7 1) (after outbid)).1) as H.
  destruct H as [_ H]; [by_compute | apply list_elem_of_singleton; reflexivity |].
  exact (H 8).
Defined.

(** ** Listings *)

(** C5 (the code departs from it): [fetchMarketItems] sizes its result by
    the id counter minus the sold counter instead of counting the held
    listings first, as [fetchMyNFTs] and [fetchItemsCreated] do, and
    [createMarketSale] increments the sold counter for every sale, also of a
    listing already recorded as sold.  In the run [bought_twice] asset 1 is
    sold, handed back to the marketplace with the inherited [transferFrom]
    and sold again.  Afterwards both counters are 2 and the listing of asset
    2 is unsold and held by the marketplace: the array allocated for the
    result is empty, and [fetchMarketItems] reverts with an index panic
    instead of returning that listing. *)
Theorem unsold_view_reverts_after_second_sale :
  Forall (wf_tx market) bought_twice ∧
  _tokenIds (after bought_twice) = 2 ∧
  _itemsSold (after bought_twice) = 2 ∧
  item_owner (itemAt (after bought_twice) 2) = market ∧
  item_sold (itemAt (after bought_twice) 2) = false ∧
  held_items market (after bought_twice) 0 2 = [itemAt (after bought_twice) 2] ∧
  ∀ env, this env = market →
    fetchMarketItems env (after bought_twice) = Revert PanicIndex (after bought_twice).
Proof.
  split.
  { cbv [bought_twice handed_back bought listed app].
    repeat (constructor; [wf_compute|]). constructor. }
  repeat split; try by_compute.
  intros [self sender value now w] Hself. cbn in Hself. subst self.
  vm_compute. reflexivity.
Qed.

(** ** Finalizing an auction *)

(** C6: [finalizeAuction] fails with NoActiveAuction unless the auction is
    active and with AuctionStillActive unless the block time has reached the
    end time; its outcome does not depend on who calls.  When it succeeds
    the auction is inactive afterwards, and every later [finalizeAuction] on
    it -- by any caller, at any time, also after other calls that do not
    start a new auction on the asset -- fails with NoActiveAuction and
    changes nothing, so nothing is transferred or paid twice. *)




(** ** Direct sale *)

(** C7: [createMarketSale] fails with PriceMismatch unless the attached
    value equals the recorded price.  On success the listing's owner is the
    caller and it is marked sold, the sold counter is one more (the counter
    is below its maximum), the registry moves the asset from the marketplace
    to the caller, and the only payment is the listing fee to the contract
    owner: the seller is paid nothing. *)

Theorem buy_spec self caller attached now t s :
  (attached ≠ item_price (itemAt s t) →
     transact self (buy_tx caller attached now t) s = (s, Failure PriceMismatch)) ∧
  (∀ s' r log, transact self (buy_tx caller attached now t) s = (s', Success r log) →
     attached = item_price (itemAt s t) ∧
     item_owner (itemAt s' t) = caller ∧
     item_sold (itemAt s' t) = true ∧
     item_seller (itemAt s' t) = item_seller (itemAt s t) ∧
     item_price (itemAt s' t) = item_price (itemAt s t) ∧
     _itemsSold s' = wrap (_itemsSold s + 1) ∧
     (0 ≤ _itemsSold s < MAX_UINT256 → _itemsSold s' = _itemsSold s + 1) ∧
     ownerAt s t = self ∧ ownerAt s' t = caller ∧
     log = [Sent (owner s) (listingPrice s) s'] ∧
     balance s' = balance s + attached - listingPrice s).
Proof.
  split.
  - intros Hp.
    apply (transact_body_revert _ _ _ _ (entry (buy_tx caller attached now t) s)); [by left|].
    unfold body, exec, buy_tx, createMarketSale. steps; congruence.
  - intros s' r log H.
    apply transact_success in H as [_ H]. apply body_ok in H as [_ H].
    apply createMarketSale_ok in H. destruct H as (Hv & Ho & _ & _ & _ & -> & ->).
    cbn in Hv, Ho. repeat split; try (by frame).
    intros Hr. frame. unfold wrap. apply Z.mod_small. unfold MAX_UINT256 in Hr. lia.
Qed.


Lemma buy_spec_witness :
  transact market (buy_tx buyer 99 2 1) (after listed) = (after listed, Failure PriceMismatch) ∧
  _itemsSold (after bought) = _itemsSold (after listed) + 1.
Proof.
  destruct (buy_spec market buyer 99 2 1 (after listed)) as (H & _).
  split; [apply H; by_compute|].
  destruct (buy_spec market buyer 100 2 1 (after listed)) as (_ & H2).
  destruct (H2 (after bought) None
              [Sent operator fee (after bought)]) as (_ & _ & _ & _ & _ & _ & H3 & _);
    [by_compute|].
  apply H3. by_compute.
Defined.

(** ** Minting *)

(** C8: in every state reached from deployment, [createToken] fails with
    InvalidPrice unless the price is positive and with FeeMismatch unless
    the attached value is the listing fee; otherwise it returns the id
    counter plus one, an id no asset or listing has yet and which exceeds
    every id returned before, records the listing (seller the caller, owner
    the marketplace, the given price, not sold), leaves the asset in the
    marketplace's custody and emits MarketItemCreated with these values. *)

Theorem mint_and_list_spec self operator txs caller attached now uri price :
  self ≠ 0 → Forall (wf_tx self) txs → Z.of_nat (length txs) < MAX_UINT256 →
  wf_tx self (mint_tx caller attached now uri price) →
  let s := run self txs (deploy operator) in
  let tx := mint_tx caller attached now uri price in
  let id := _tokenIds s + 1 in
  (¬ price > 0 → transact self tx s = (s, Failure InvalidPrice)) ∧
  (price > 0 → attached ≠ listingPrice s → transact self tx s = (s, Failure FeeMismatch)) ∧
  (price > 0 → attached = listingPrice s →
     transact self tx s
     = (mint_state uri price caller self (entry tx s),
        Success (Some id) [MarketItemCreated id caller self price false]) ∧
     itemAt (transact self tx s).1 id = mint_item id price caller self ∧
     ownerAt (transact self tx s).1 id = self ∧
     _tokenIds (transact self tx s).1 = id) ∧
  ownerAt s id = 0 ∧ itemAt s id = zeroItem ∧
  minted_ids self txs (deploy operator) = seqZ 1 (_tokenIds s) ∧
  Forall (λ old, old < id) (minted_ids self txs (deploy operator)).
Proof.
  intros Hself Hwf Hlen (Hc0 & Hcs & Hv) s tx id.
  destruct (reachable_Inv self operator txs Hself Hwf Hlen) as (HI & Hmax & _).
  fold s in HI, Hmax.
  destruct HI as [Hids Hsc Hbal Hfresh Hminted Hsold Hcount].
  destruct (Hfresh id) as [Hzi Hzo]; [subst id; lia|].
  assert (Hw : wrap (_tokenIds s + 1) = id) by (apply wrap_small; lia).
  assert (Hseq : minted_ids self txs (deploy operator) = seqZ 1 (_tokenIds s)).
  { rewrite minted_ids_seq by (cbn; lia). fold s. cbn. by rewrite Z.sub_0_r. }
  cbn [mint_tx tx_sender tx_value] in *.
  split; [|split; [|split; [|split; [|split; [|split]]]]]; try done.
  - intros Hp.
    apply (transact_body_revert _ _ _ _
      (set_tokenURIs (<[id := uri]> (_tokenURIs s))
         (putOwner id caller (set_tokenIds id (entry tx s))))); [by left|].
    revert Hzo. unfold body, exec, tx, mint_tx, createToken, createMarketItem; cbn [tx_call].
    rewrite <- Hw. steps; intros; try congruence.
    all: rewrite ?lookup_insert_eq in *; cbn in *; try congruence.
  - intros Hp Hf.
    apply (transact_body_revert _ _ _ _
      (set_tokenURIs (<[id := uri]> (_tokenURIs s))
         (putOwner id caller (set_tokenIds id (entry tx s))))); [by left|].
    revert Hzo. unfold body, exec, tx, mint_tx, createToken, createMarketItem; cbn [tx_call].
    rewrite <- Hw. steps; intros; try congruence.
    all: rewrite ?lookup_insert_eq in *; cbn in *; try congruence.
  - intros Hp Hf.
    assert (E : transact self tx s
     = (mint_state uri price caller self (entry tx s),
        Success (Some id) [MarketItemCreated id caller self price false])).
    { apply transact_body_ok; [by left|].
      assert (E : createToken uri price (env_of self tx) (entry tx s)
                  = Ok id (mint_state uri price caller self (entry tx s))
                      [MarketItemCreated id caller self price false]).
      { apply createToken_ok. cbn. rewrite Hw. repeat split; try done. }
      unfold body, exec. cbn [tx tx_call mint_tx]. fold tx. by rewrite E. }
    rewrite E. cbn [fst]. unfold mint_state. cbn [entry _tokenIds set_balance]. fold s.
    rewrite Hw. repeat split; by frame.
  - rewrite Hseq. apply Forall_forall. intros old Hin. apply elem_of_seqZ in Hin. lia.
Qed.


Lemma mint_and_list_spec_witness :
  transact market (mint_tx alice fee 8 "ipfs://asset-2" 7) (after outbid)
  = (mint_state "ipfs://asset-2" 7 alice market
       (entry (mint_tx alice fee 8 "ipfs://asset-2" 7) (after outbid)),
     Success (Some 2) [MarketItemCreated 2 alice market 7 false]).
Proof.
  destruct (demo_wf outbid eq_refl) as [Hwf Hlen].
  destruct (mint_and_list_spec market operator outbid alice fee 8 "ipfs://asset-2" 7
              ltac:(done) Hwf Hlen) as (_ & _ & H & _).
  { wf_compute. }
  destruct H as (H & _); [lia | by_compute |].
  exact H.
Defined.

(** ** Buying what is not for sale *)

(** C9, as the code has it: the only explicit check of [createMarketSale]
    is that the attached value equals the stored price; nothing in it tests
    that the listing exists, is unsold or is held by the marketplace.  But
    the custody transfer it performs reverts unless the registry records the
    marketplace as the asset's owner.  On an id the registry has no owner
    for -- a never minted id -- a buy fails for every attached value, with
    the registry's invalid-token error when the value is the stored price 0,
    and records nothing.  A listing already marked sold is bought again
    whenever the value matches, the registry records the marketplace as the
    owner of its asset, and the contract owner takes the fee the contract
    holds; every successful buy, of a sold listing or not, makes the caller
    its owner and increments the sold counter. *)

Theorem buy_guarded_by_custody self caller attached now t s w :
  (attached ≠ item_price (itemAt s t) →
     transact self (in_world w (buy_tx caller attached now t)) s = (s, Failure PriceMismatch)) ∧
  (ownerAt s t = 0 → ∀ value,
     ∃ e, transact self (in_world w (buy_tx caller value now t)) s = (s, Failure e)) ∧
  (item_price (itemAt s t) = 0 → ownerAt s t = 0 →
     transact self (in_world w (buy_tx caller 0 now t)) s = (s, Failure ERC721InvalidTokenId)) ∧
  (∀ s' r log,
     transact self (in_world w (buy_tx caller attached now t)) s = (s', Success r log) →
     attached = item_price (itemAt s t) ∧ ownerAt s t = self ∧
     takes_ether w (owner s) = true ∧
     item_owner (itemAt s' t) = caller ∧
     item_sold (itemAt s' t) = true ∧ _itemsSold s' = wrap (_itemsSold s + 1)) ∧
  (item_sold (itemAt s t) = true →
   attached = item_price (itemAt s t) → ownerAt s t = self → self ≠ 0 → caller ≠ 0 →
   listingPrice s ≤ balance s + attached → takes_ether w (owner s) = true →
     transact self (in_world w (buy_tx caller attached now t)) s
     = (sale_state t caller (entry (buy_tx caller attached now t) s),
        Success None
          [Sent (owner s) (listingPrice s)
             (sale_state t caller (entry (buy_tx caller attached now t) s))])).
Proof.
  split; [|split; [|split; [|split]]].
  - intros Hp.
    apply (transact_body_revert _ _ _ _ (entry (buy_tx caller attached now t) s)); [by left|].
    unfold body, exec, in_world, buy_tx, createMarketSale.
    steps; first [congruence | reflexivity].
  - intros Ho value.
    destruct (transact self (in_world w (buy_tx caller value now t)) s)
      as [s' [r log|e]] eqn:E.
    + apply transact_success in E as [_ E]. apply body_ok in E as [_ E].
      apply createMarketSale_ok in E. destruct E as (_ & E & Hs & _). frame. congruence.
    + exists e. apply transact_failure in E. by rewrite E.
  - intros Hp Ho.
    apply (transact_body_revert _ _ _ _
             (set_itemsSold (wrap (_itemsSold s + 1))
                (putItem t (sale_item t caller s) (entry (buy_tx caller 0 now t) s))));
      [by left|].
    unfold body, exec, in_world, buy_tx, createMarketSale, sale_item.
    steps; first [congruence | reflexivity].
  - intros s' r log H.
    apply transact_success in H as [_ H]. apply body_ok in H as [_ H].
    apply createMarketSale_ok in H. destruct H as (Hv & Ho & _ & _ & [_ Hw] & -> & ->).
    cbn in Hv, Ho, Hw. repeat split; by frame.
  - intros _ Hv Ho Hs Hc Hfee Hw.
    apply transact_body_ok; [by left|].
    assert (E : createMarketSale t (env_of self (in_world w (buy_tx caller attached now t)))
                  (entry (buy_tx caller attached now t) s)
                = Ok () (sale_state t caller (entry (buy_tx caller attached now t) s))
                    [Sent (owner s) (listingPrice s)
                       (sale_state t caller (entry (buy_tx caller attached now t) s))]).
    { apply createMarketSale_ok. cbn. by repeat split. }
    unfold body.
    change (exec (tx_call (in_world w (buy_tx caller attached now t))))
      with (no_result (createMarketSale t)).
    change (entry (in_world w (buy_tx caller attached now t)) s)
      with (entry (buy_tx caller attached now t) s).
    unfold no_result. by rewrite E.
Qed.

Lemma buy_guarded_by_custody_witness :
  item_sold (itemAt (after handed_back) 1) = true ∧
  transact market (buy_tx alice 100 5 1) (after handed_back)
  = (after bought_twice, Success None [Sent operator fee (after bought_twice)]) ∧
  _itemsSold (after handed_back) = 1 ∧ _itemsSold (after bought_twice) = 2 ∧
  transact market (buy_tx alice 0 9 7) (after outbid)
  = (after outbid, Failure ERC721InvalidTokenId).
Proof.
  destruct (buy_guarded_by_custody market alice 100 5 1 (after handed_back) open_world)
    as (_ & _ & _ & _ & H).
  destruct (buy_guarded_by_custody market alice 0 9 7 (after outbid) open_world)
    as (_ & _ & H0 & _).
  split; [by_compute|]. split; [|split; [by_compute|split; [by_compute|]]].
  - etrans; [apply H; by_compute|]. by_compute.
  - apply H0; by_compute.
Defined.

(** C9, counterexample to "buy with attached value 0 succeeds on a never
    minted id": right after deployment asset 7 has stored price 0, and
    buying it with value 0 fails and leaves the state untouched. *)
Lemma phantom_buy_reverts :
  item_price (itemAt (deploy operator) 7) = 0 ∧
  transact market (buy_tx buyer 0 1 7) (deploy operator)
  = (deploy operator, Failure ERC721InvalidTokenId) ∧
  ¬ ∃ s' r log, transact market (buy_tx buyer 0 1 7) (deploy operator)
                = (s', Success r log).
Proof.
  split; [by_compute|]. split; [by_compute|].
  intros (s' & r & log & H). vm_compute in H. discriminate.
Qed.

(** ** Relisting for nothing *)

(** C10, as the code has it: [resellToken] puts no lower bound on the new
    price.  In every state reached from deployment, the recorded owner of a
    listing who is still the registry owner of the asset and attaches the
    listing fee can relist it at price 0; the listing then has price 0, and
    [createMarketSale] with attached value 0 succeeds on it for any caller,
    who becomes its owner, provided the contract owner takes the fee
    payment (the call reverts otherwise). *)

Theorem relist_at_zero_then_buy_free self operator txs caller now t buyer now2 w :
  self ≠ 0 → Forall (wf_tx self) txs → Z.of_nat (length txs) < MAX_UINT256 →
  let s := run self txs (deploy operator) in
  wf_tx self (relist_tx caller (listingPrice s) now t 0) →
  wf_tx self (buy_tx buyer 0 now2 t) →
  item_owner (itemAt s t) = caller →
  ownerAt s t = caller →
  let s1 := relist_state t 0 caller self (entry (relist_tx caller (listingPrice s) now t 0) s) in
  let s2 := sale_state t buyer (entry (buy_tx buyer 0 now2 t) s1) in
  transact self (relist_tx caller (listingPrice s) now t 0) s = (s1, Success None []) ∧
  item_price (itemAt s1 t) = 0 ∧
  item_owner (itemAt s1 t) = self ∧
  item_sold (itemAt s1 t) = false ∧
  (takes_ether w (owner s) = true →
     transact self (in_world w (buy_tx buyer 0 now2 t)) s1
     = (s2, Success None [Sent (owner s) (listingPrice s) s2]) ∧
     item_owner (itemAt s2 t) = buyer ∧
     item_sold (itemAt s2 t) = true) ∧
  (takes_ether w (owner s) ≠ true →
     transact self (in_world w (buy_tx buyer 0 now2 t)) s1 = (s1, Failure TransferFailed)).
Proof.
  intros Hself Hwf Hlen s (Hc0 & Hcs & Hv) (Hb0 & Hbs & _) Ho Hreg s1 s2.
  cbn [relist_tx buy_tx tx_sender tx_value] in *.
  destruct (reachable_Inv self operator txs Hself Hwf Hlen) as (HI & Hmax & _).
  fold s in HI, Hmax.
  pose proof (Inv_in_range_item self s t HI ltac:(congruence)) as Hr.
  pose proof (Inv_sold_covers self s t HI Hr ltac:(congruence)) as Hpos.
  pose proof (inv_balance _ _ HI) as Hbal.
  assert (E1 : transact self (relist_tx caller (listingPrice s) now t 0) s
               = (s1, Success None [])).
  { apply transact_body_ok; [by left|].
    assert (E : resellToken t 0 (env_of self (relist_tx caller (listingPrice s) now t 0))
                  (entry (relist_tx caller (listingPrice s) now t 0) s) = Ok () s1 []).
    { apply resellToken_ok. cbn. repeat split; try done. lia. }
    unfold body.
    change (exec (tx_call (relist_tx caller (listingPrice s) now t 0)))
      with (no_result (resellToken t 0)).
    unfold no_result. by rewrite E. }
  destruct (relist_state_reads t 0 caller self
              (entry (relist_tx caller (listingPrice s) now t 0) s))
    as (Hi1 & Ho1 & Hf1 & Hop1 & Hb1). fold s1 in Hi1, Ho1, Hf1, Hop1, Hb1.
  destruct (sale_state_reads t buyer (entry (buy_tx buyer 0 now2 t) s1)) as (Hi2 & _).
  fold s2 in Hi2.
  split; [done|]. rewrite Hi1. split; [done|]. split; [done|]. split; [done|]. split.
  - intros Hw. rewrite Hi2. split; [|done].
    apply transact_body_ok; [by left|].
    assert (E : createMarketSale t (env_of self (in_world w (buy_tx buyer 0 now2 t)))
                  (entry (buy_tx buyer 0 now2 t) s1)
                = Ok () s2 [Sent (owner s) (listingPrice s) s2]).
    { apply createMarketSale_ok.
      destruct (entry_reads (buy_tx buyer 0 now2 t) s1)
        as (Hi & Hoo & _ & _ & Hf & Hop & _ & _ & Hbb).
      rewrite Hi, Hoo, Hf, Hop, Hbb, Hi1, Ho1, Hf1, Hop1, Hb1.
      cbn [env_of in_world buy_tx relist_tx entry this msg_sender msg_value tx_sender tx_value
           tx_world world relist_item item_price set_balance balance listingPrice owner].
      repeat split; try done. lia. }
    unfold body.
    change (exec (tx_call (in_world w (buy_tx buyer 0 now2 t))))
      with (no_result (createMarketSale t)).
    change (entry (in_world w (buy_tx buyer 0 now2 t)) s1)
      with (entry (buy_tx buyer 0 now2 t) s1).
    unfold no_result. by rewrite E.
  - intros Hw.
    apply (transact_body_revert _ _ _ _
             (moveToken t buyer
                (set_itemsSold (wrap (_itemsSold s1 + 1))
                   (putItem t (sale_item t buyer s1) (entry (buy_tx buyer 0 now2 t) s1)))));
      [by left|].
    unfold body.
    change (exec (tx_call (in_world w (buy_tx buyer 0 now2 t))))
      with (no_result (createMarketSale t)).
    change (entry (in_world w (buy_tx buyer 0 now2 t)) s1)
      with (entry (buy_tx buyer 0 now2 t) s1).
    assert (Hp : item_price (itemAt s1 t) = 0) by (by rewrite Hi1).
    assert (Hown : owner s1 = owner s) by done.
    revert Hp Ho1 Hw. rewrite <- Hown. generalize s1. intros s1' Hp Ho1 Hw.
    unfold no_result, createMarketSale, sale_item. steps; try congruence.
Qed.

Lemma relist_at_zero_then_buy_free_witness :
  item_price (itemAt (relist_state 1 0 buyer market
                        (entry (relist_tx buyer fee 3 1 0) (after bought))) 1) = 0.
Proof.
  assert (Hwf : Forall (wf_tx market) bought).
  { cbv [bought listed app]. repeat (constructor; [wf_compute|]). constructor. }
  destruct (relist_at_zero_then_buy_free market operator bought buyer 3 1 alice 4 open_world
              ltac:(done) Hwf ltac:(by_compute)) as (_ & H & _).
  - wf_compute.
  - wf_compute.
  - by_compute.
  - by_compute.
  - exact H.
Defined.

(** C10, counterexample to "for every listing whose recorded holder equals
    the caller ... relist with new price 0 succeeds": in the run [given_away]
    the buyer of asset 1 has given it to [alice] by a direct registry
    transfer.  The listing still records the buyer as owner, and the
    buyer's relist at price 0 with the fee attached reverts in the custody
    transfer. *)
Lemma holder_without_token_cannot_relist :
  Forall (wf_tx market) given_away ∧
  item_owner (itemAt (after given_away) 1) = buyer ∧
  listingPrice (after given_away) = fee ∧
  transact market (relist_tx buyer fee 4 1 0) (after given_away)
  = (after given_away, Failure ERC721IncorrectOwner) ∧
  ¬ ∃ s' r log, transact market (relist_tx buyer fee 4 1 0) (after given_away)
                = (s', Success r log).
Proof.
  split.
  { cbv [given_away bought listed app]. repeat (constructor; [wf_compute|]). constructor. }
  split; [by_compute|]. split; [by_compute|]. split; [by_compute|].
  intros (s' & r & log & H). vm_compute in H. discriminate.
Qed.
(** * Beyond the claims: views, administration, and how the functions compose *)

Section loops.
Context (P : MarketItem → Prop) `{Pdec : ∀ it, Decision (P it)}.


Lemma listings_where_length_le s i n : (length (listings_where P s i n) ≤ n)%nat.
Proof.
  unfold listings_where. etrans; [apply length_filter|].
  rewrite length_map, length_seqZ. lia.
Qed.




End loops.








(** The loop of [fetchMarketItems] when the array is too short for the held
    listings still to come. *)
Lemma fetch_loop_overrun env s n : ∀ i pre m,
  (m < length (held_items (this env) s i n))%nat →
  for_range n i
    (λ i acc,
       if decide (item_owner (itemAt s (i + 1)) = this env) then
         let currentId := i + 1 in
         let currentItem := itemAt s currentId in
         items' ← array_store acc.1 acc.2 currentItem;
         mret (items', acc.2 + 1)
       else mret acc)
    (pre ++ replicate m zeroItem, Z.of_nat (length pre)) env s
  = Revert PanicIndex s.
Proof.
  unfold array_store, revert, mbind, M_bind, bind, mret, M_ret.
  induction n as [|k IH]; intros i pre m Hm.
  - change (held_items (this env) s i 0) with (@nil MarketItem) in Hm. cbn in Hm. lia.
  - rewrite held_items_cons in *. cbn [for_range].
    unfold mbind, M_bind, bind, mret, M_ret.
    destruct (decide (item_owner (itemAt s (i + 1)) = this env)) as [Hh|Hh].
    + cbn [app length] in *. cbn [fst snd]. destruct m as [|m'].
      * rewrite decide_False by (rewrite length_app; cbn; lia). done.
      * rewrite decide_True by (rewrite length_app; cbn; lia).
        cbn [app]. rewrite Nat2Z.id.
        replace (<[length pre:=itemAt s (i + 1)]> (pre ++ replicate (S m') zeroItem))
          with ((pre ++ [itemAt s (i + 1)]) ++ replicate m' zeroItem).
        2:{ rewrite insert_app_r_alt by lia. rewrite Nat.sub_diag. cbn.
            by rewrite <- app_assoc. }
        replace (Z.of_nat (length pre) + 1)
          with (Z.of_nat (length (pre ++ [itemAt s (i + 1)])))
          by (rewrite length_app; cbn; lia).
        assert (Hm' : (m' < length (held_items (this env) s (i + 1) k))%nat) by lia.
        by rewrite (IH (i + 1) (pre ++ [itemAt s (i + 1)]) m' Hm').
    + cbn [app length] in *. by rewrite IH by lia.
Qed.

Lemma fetchMarketItems_underflow env s :
  _tokenIds s < _itemsSold s → fetchMarketItems env s = Revert PanicOverflow s.
Proof.
  intros Hlt. unfold fetchMarketItems, checked_sub.
  unfold revert, ask, get, mbind, M_bind, bind, mret, M_ret.
  by rewrite decide_False by lia.
Qed.

Lemma fetchMarketItems_too_long env s :
  _itemsSold s ≤ _tokenIds s → MAX_ARRAY_LENGTH < _tokenIds s - _itemsSold s →
  fetchMarketItems env s = Revert PanicAlloc s.
Proof.
  intros Hle Hlong. unfold fetchMarketItems, checked_sub, new_items.
  unfold revert, ask, get, mbind, M_bind, bind, mret, M_ret.
  rewrite decide_True by lia. cbn beta. by rewrite decide_False by lia.
Qed.

Lemma fetchMarketItems_overrun env s :
  _itemsSold s ≤ _tokenIds s → _tokenIds s - _itemsSold s ≤ MAX_ARRAY_LENGTH →
  _tokenIds s - _itemsSold s < held_count (this env) s (Z.to_nat (_tokenIds s)) →
  fetchMarketItems env s = Revert PanicIndex s.
Proof.
  intros Hle Hfit Hgt. rewrite <- held_items_length in Hgt.
  pose proof (fetch_loop_overrun env s (Z.to_nat (_tokenIds s)) 0 []
                (Z.to_nat (_tokenIds s - _itemsSold s)) ltac:(lia)) as Hloop.
  cbn [app length] in Hloop. change (Z.of_nat 0) with 0 in Hloop.
  unfold fetchMarketItems, checked_sub, new_items.
  unfold array_store, revert, ask, get, mbind, M_bind, bind, mret, M_ret in *.
  rewrite decide_True by lia. cbn beta. rewrite decide_True by lia. cbn beta.
  by rewrite Hloop.
Qed.

(** In a state that satisfies the invariant, [fetchMarketItems] returns only
    when the two counters leave room for exactly the held listings, and
    then returns exactly those. *)
Lemma fetchMarketItems_returns env s items s' log :
  Inv (this env) s → fetchMarketItems env s = Ok items s' log →
  s' = s ∧ log = [] ∧ items = held_items (this env) s 0 (Z.to_nat (_tokenIds s)) ∧
  held_count (this env) s (Z.to_nat (_tokenIds s)) + _itemsSold s = _tokenIds s ∧
  _tokenIds s - _itemsSold s ≤ MAX_ARRAY_LENGTH.
Proof.
  intros HI E. pose proof (inv_count _ _ HI) as Hc. pose proof (inv_ids _ _ HI) as Hn.
  destruct (decide (_tokenIds s < _itemsSold s)) as [Hlt|Hle].
  { rewrite fetchMarketItems_underflow in E by done. discriminate. }
  destruct (decide (MAX_ARRAY_LENGTH < _tokenIds s - _itemsSold s)) as [Hlong|Hfit].
  { rewrite fetchMarketItems_too_long in E by lia. discriminate. }
  destruct (decide (_tokenIds s - _itemsSold s
                    < held_count (this env) s (Z.to_nat (_tokenIds s)))) as [Hgt|Hroom].
  { rewrite fetchMarketItems_overrun in E by lia. discriminate. }
  rewrite fetchMarketItems_exact in E by lia. injection E as <- <- <-.
  repeat split; lia.
Qed.

(** X3: [fetchMarketItems] on an arbitrary storage.  It fails with an
    arithmetic panic when the sold counter exceeds the id counter, with an
    allocation panic when the difference of the counters exceeds the
    longest array, with an index panic when more listings are held by the
    marketplace than the two counters leave room for, and otherwise returns
    the held listings followed by zero entries up to the allocated length. *)
Theorem fetchMarketItems_cases env s :
  0 ≤ _itemsSold s → 0 ≤ _tokenIds s →
  let held := held_count (this env) s (Z.to_nat (_tokenIds s)) in
  (_tokenIds s < _itemsSold s → fetchMarketItems env s = Revert PanicOverflow s) ∧
  (_itemsSold s ≤ _tokenIds s → MAX_ARRAY_LENGTH < _tokenIds s - _itemsSold s →
     fetchMarketItems env s = Revert PanicAlloc s) ∧
  (_itemsSold s ≤ _tokenIds s → _tokenIds s - _itemsSold s ≤ MAX_ARRAY_LENGTH →
   _tokenIds s - _itemsSold s < held →
     fetchMarketItems env s = Revert PanicIndex s) ∧
  (_itemsSold s ≤ _tokenIds s → _tokenIds s - _itemsSold s ≤ MAX_ARRAY_LENGTH →
   held ≤ _tokenIds s - _itemsSold s →
     fetchMarketItems env s
     = Ok (held_items (this env) s 0 (Z.to_nat (_tokenIds s))
             ++ replicate (Z.to_nat (_tokenIds s - _itemsSold s - held)) zeroItem) s []).
Proof.
  intros Hsold Hids held. split; [|split; [|split]].
  - apply fetchMarketItems_underflow.
  - apply fetchMarketItems_too_long.
  - apply fetchMarketItems_overrun.
  - intros Hle Hfit Hroom. by apply fetchMarketItems_padded.
Qed.

Lemma fetchMarketItems_cases_witness :
  fetchMarketItems (env_of Demo.market (withdraw_tx Demo.alice 7 1))
    (set_itemsSold 2 (Demo.after Demo.outbid))
  = Revert PanicOverflow (set_itemsSold 2 (Demo.after Demo.outbid)).
Proof.
  destruct (fetchMarketItems_cases (env_of Demo.market (withdraw_tx Demo.alice 7 1))
              (set_itemsSold 2 (Demo.after Demo.outbid))) as (H & _);
    [by_compute | by_compute |].
  apply H. by_compute.
Defined.

(** X4: [updateListingPrice] is refused with NotAuthorized for every
    caller but the contract owner and then changes nothing; for the owner it
    sets the fee, which [getListingPrice] then returns, and any value
    attached to the call stays in the contract. *)
Theorem updateListingPrice_spec self caller attached now p s :
  let tx := update_tx caller attached now p in
  (caller ≠ owner s → transact self tx s = (s, Failure NotAuthorized)) ∧
  (caller = owner s →
     transact self tx s = (set_listingPrice p (entry tx s), Success None []) ∧
     ∀ env, getListingPrice env (transact self tx s).1 = Ok p (transact self tx s).1 [] ∧
            balance (transact self tx s).1 = balance s + attached).
Proof.
  intros tx. split.
  - intros Hne. apply (transact_body_revert _ _ _ _ (entry tx s)); [by left|].
    unfold body, exec, tx, update_tx, updateListingPrice. steps; congruence.
  - intros ->.
    assert (E : transact self tx s = (set_listingPrice p (entry tx s), Success None [])).
    { apply transact_body_ok; [by left|].
      unfold body, exec, tx, update_tx, updateListingPrice. steps; congruence. }
    split; [done|]. intros env. rewrite E. done.
Qed.

Lemma updateListingPrice_spec_witness :
  transact Demo.market (update_tx Demo.alice 0 9 1) (Demo.after Demo.outbid)
  = (Demo.after Demo.outbid, Failure NotAuthorized).
Proof.
  destruct (updateListingPrice_spec Demo.market Demo.alice 0 9 1 (Demo.after Demo.outbid))
    as (H & _).
  apply H. by_compute.
Defined.

Lemma transact_owner self tx s : owner (transact self tx s).1 = owner s.
Proof.
  destruct (transact self tx s) as [s' [r log|e]] eqn:E; cbn;
    [|by apply transact_failure in E as ->].
  by_call E C.
  all: try (destruct E as [(?&?&?)|(?&?&?&?&?&?)]).
  all: subst; by frame.
Qed.

Lemma transact_listingPrice self tx s :
  tx_sender tx ≠ owner s → listingPrice (transact self tx s).1 = listingPrice s.
Proof.
  intros Hne.
  destruct (transact self tx s) as [s' [r log|e]] eqn:E; cbn;
    [|by apply transact_failure in E as ->].
  by_call E C.
  all: try (destruct E as [(?&?&?)|(?&?&?&?&?&?)]).
  all: subst; by frame.
Qed.

(** X5: along any sequence of calls the contract owner never changes, and
    if no call comes from the owner the listing fee never changes. *)
Theorem operator_and_fee_stable self txs : ∀ s,
  owner (run self txs s) = owner s ∧
  (Forall (λ tx, tx_sender tx ≠ owner s) txs →
   listingPrice (run self txs s) = listingPrice s).
Proof.
  induction txs as [|tx txs IH]; intros s; cbn [run]; [done|].
  destruct (IH (transact self tx s).1) as [Ho Hf].
  rewrite transact_owner in Ho, Hf. split; [done|].
  intros Hall. inversion Hall as [|? ? Htx Hrest]; subst.
  rewrite Hf by done. by apply transact_listingPrice.
Qed.

(** The metadata reference given at mint is the one stored for the new id. *)
Lemma createToken_stores_uri uri price env s id s' log :
  createToken uri price env s = Ok id s' log → _tokenURIs s' !! id = Some uri.
Proof.
  intros E. apply createToken_ok in E as (_ & _ & _ & _ & _ & -> & -> & _).
  unfold mint_state. cbn. by rewrite lookup_insert_eq.
Qed.

(** X6: [setTokenURI] fails with the registry's invalid-token error for an
    asset without owner and with NotAuthorized for a caller who is not the
    registry owner; for the registry owner it stores the new reference for
    that asset, leaves every other reference, the registry and the listings
    as they were.  The reference given to [createToken] is the one stored
    for the id it returns. *)
Theorem setTokenURI_spec self caller now t u s :
  let tx := seturi_tx caller now t u in
  (ownerAt s t = 0 → transact self tx s = (s, Failure ERC721InvalidTokenId)) ∧
  (ownerAt s t ≠ 0 → caller ≠ ownerAt s t → transact self tx s = (s, Failure NotAuthorized)) ∧
  (ownerAt s t ≠ 0 → caller = ownerAt s t →
     transact self tx s
     = (set_tokenURIs (<[t := u]> (_tokenURIs s)) (entry tx s), Success None []) ∧
     _tokenURIs (transact self tx s).1 !! t = Some u ∧
     (∀ t', t' ≠ t → _tokenURIs (transact self tx s).1 !! t' = _tokenURIs s !! t') ∧
     (∀ id, ownerAt (transact self tx s).1 id = ownerAt s id ∧
            itemAt (transact self tx s).1 id = itemAt s id)) ∧
  (∀ uri price env s0 id s1 log,
     createToken uri price env s0 = Ok id s1 log → _tokenURIs s1 !! id = Some uri).
Proof.
  intros tx. split; [|split; [|split]]; [| | |apply createToken_stores_uri].
  - intros Hz. apply (transact_body_revert _ _ _ _ (entry tx s)); [by right|].
    unfold body, exec, tx, seturi_tx, setTokenURI. steps; congruence.
  - intros Hz Hne. apply (transact_body_revert _ _ _ _ (entry tx s)); [by right|].
    unfold body, exec, tx, seturi_tx, setTokenURI. steps; congruence.
  - intros Hz ->.
    assert (E : transact self tx s
                = (set_tokenURIs (<[t := u]> (_tokenURIs s)) (entry tx s), Success None [])).
    { apply transact_body_ok; [by right|].
      unfold body, exec, tx, seturi_tx, setTokenURI. steps; congruence. }
    rewrite E. cbn [fst]. split; [done|]. split; [|split].
    + cbn. by rewrite lookup_insert_eq.
    + intros t' Hne. cbn. by rewrite lookup_insert_ne.
    + done.
Qed.

(** While the registry records the marketplace as owner, no caller passes
    the owner check of [startAuction] or [setTokenURI]. *)
Lemma custody_blocks self caller now t s :
  self ≠ 0 → caller ≠ self → ownerAt s t = self →
  (∀ p e, transact self (start_tx caller now t p e) s = (s, Failure NotAuthorized)) ∧
  (∀ u, transact self (seturi_tx caller now t u) s = (s, Failure NotAuthorized)).
Proof.
  intros Hs Hc Ho. split.
  - intros p e. apply (transact_body_revert _ _ _ _ (entry (start_tx caller now t p e) s));
      [by right|].
    unfold body, exec, start_tx, startAuction. steps; congruence.
  - intros u. apply (transact_body_revert _ _ _ _ (entry (seturi_tx caller now t u) s));
      [by right|].
    unfold body, exec, seturi_tx, setTokenURI. steps; congruence.
Qed.

(** A successful mint or relist leaves the asset in the marketplace's
    registry custody. *)
Lemma mint_or_relist_custody self tx s s' r log t :
  transact self tx s = (s', Success r log) →
  r = Some t ∨ (∃ p, tx_call tx = ResellToken t p) →
  ownerAt s' t = self.
Proof.
  intros E Hcase. by_call E C.
  all: try (destruct E as [(?&?&?)|(?&?&?&?&?&?)]).
  all: destruct Hcase as [Hr|(p & Hp)]; try discriminate.
  - injection Hr as <-. subst. unfold mint_state. by frame.
  - injection Hp as <- <-. subst. by frame.
Qed.

(** X7: once an asset has been minted or relisted it is in the
    marketplace's custody, so no caller -- its seller included -- can start
    an auction on it or change its metadata reference: both fail with
    NotAuthorized. *)
Theorem listed_asset_cannot_be_auctioned self tx s s' r log caller now t :
  self ≠ 0 → caller ≠ self →
  transact self tx s = (s', Success r log) →
  r = Some t ∨ (∃ p, tx_call tx = ResellToken t p) →
  (∀ p e, transact self (start_tx caller now t p e) s' = (s', Failure NotAuthorized)) ∧
  (∀ u, transact self (seturi_tx caller now t u) s' = (s', Failure NotAuthorized)).
Proof.
  intros Hs Hc E Hcase. apply custody_blocks; try done.
  by eapply mint_or_relist_custody.
Qed.

Lemma listed_asset_cannot_be_auctioned_witness :
  transact Demo.market (start_tx Demo.seller 2 1 10 1000) (Demo.after Demo.listed)
  = (Demo.after Demo.listed, Failure NotAuthorized).
Proof.
  destruct (listed_asset_cannot_be_auctioned Demo.market
              (mint_tx Demo.seller Demo.fee 1 "ipfs://asset-1" 100) (deploy Demo.operator)
              (Demo.after Demo.listed) (Some 1)
              [MarketItemCreated 1 Demo.seller Demo.market 100 false] Demo.seller 2 1)
    as (H & _); [by_compute | by_compute | by_compute | by left |].
  apply H.
Defined.

(** No function of the marketplace removes an asset from the registry. *)
Lemma transact_keeps_owner self tx s t :
  ownerAt s t ≠ 0 → ownerAt (transact self tx s).1 t ≠ 0.
Proof.
  intros Ho.
  destruct (transact self tx s) as [s' [r log|e]] eqn:E; cbn;
    [|by apply transact_failure in E as ->].
  by_call E C.
  all: try (destruct E as [(?&?&?)|(?&?&?&?&?&?)]).
  all: subst; try (by frame).
  all: try (destruct (decide (tokenId = t)); subst; by frame).
Qed.

(** X8: no function burns: an asset that has a registry owner has one
    after any sequence of calls. *)
Theorem minted_assets_stay_owned self txs : ∀ s t,
  ownerAt s t ≠ 0 → ownerAt (run self txs s) t ≠ 0.
Proof.
  induction txs as [|tx txs IH]; intros s t Ho; cbn [run]; [done|].
  apply IH. by apply transact_keeps_owner.
Qed.

Lemma minted_assets_stay_owned_witness :
  ownerAt (run Demo.market [bid_tx Demo.alice 50 5 1; bid_tx Demo.bob 60 6 1]
             (Demo.after Demo.opened)) 1 ≠ 0.
Proof.
  apply (minted_assets_stay_owned Demo.market
           [bid_tx Demo.alice 50 5 1; bid_tx Demo.bob 60 6 1] (Demo.after Demo.opened) 1).
  by_compute.
Defined.

(** X10: [withdrawBid] does not look at who leads the auction.  A bidder
    whose bid was just accepted and who takes ether can withdraw it at once:
    the full bid is paid back and the escrow entry is zero, yet the bidder
    is still the highest bidder with the same highest bid and the auction
    stays active.  A bidder who does not take ether cannot withdraw: the
    call reverts. *)
Theorem leader_can_withdraw_and_still_lead self a v now t s s1 r1 l1 w :
  0 ≤ balance s → 0 ≤ highestBid (auctionAt s t) →
  transact self (bid_tx a v now t) s = (s1, Success r1 l1) →
  ∀ now2,
    let s2 := set_balance (balance s) (putBid t a 0 s1) in
    (takes_ether w a = true →
       transact self (in_world w (withdraw_tx a now2 t)) s1
       = (s2, Success None [Sent a v s2])) ∧
    (takes_ether w a ≠ true →
       transact self (in_world w (withdraw_tx a now2 t)) s1 = (s1, Failure TransferFailed)) ∧
    highestBidder (auctionAt s2 t) = a ∧
    highestBid (auctionAt s2 t) = v ∧
    active (auctionAt s2 t) = true ∧
    bidAt s2 t a = 0 ∧
    balance s2 = balance s.
Proof.
  intros Hbal Hhb E now2.
  apply transact_bid_ok in E as (-> & Hact & _ & Hv & _).
  set (s0 := entry (bid_tx a v now t) s).
  destruct (bid_state_reads t a v s0) as (Hl & Hh & Ha & _ & Hb & _ & Hbal1).
  set (s1 := bid_state t a v s0) in *.
  assert (Hb0 : balance s1 = balance s + v) by (rewrite Hbal1; done).
  intros s2.
  assert (Hs2 : s2 = set_balance (balance s1 - bidAt s1 t a) (putBid t a 0 s1)).
  { subst s2. rewrite Hb, Hb0. by replace (balance s + v - v) with (balance s) by lia. }
  split; [|split].
  - intros Hw. rewrite (transact_withdraw_in w) by (done || lia). rewrite <- Hs2, Hb. done.
  - intros Hw.
    apply (transact_body_revert _ _ _ _ (putBid t a 0 s1)); [by right|].
    unfold body.
    change (exec (tx_call (in_world w (withdraw_tx a now2 t))))
      with (no_result (withdrawBid t)).
    rewrite entry_no_value by done.
    revert Hb Hb0 Hw. generalize s1. intros s1' Hb Hb0 Hw.
    unfold no_result, withdrawBid, bidAt, putBid, set_bids in *.
    unfold_monad. cbn in *. repeat (case_decide; cbn in * ); first [done | lia].
  - assert (Hau : auctionAt s2 t = auctionAt s1 t) by reflexivity.
    assert (Hbz : bidAt s2 t a = 0).
    { subst s2. unfold bidAt, set_balance, putBid, set_bids. cbn. by rewrite lookup_insert_eq. }
    rewrite Hau, Hl, Hh, Ha. repeat split; done.
Qed.

Lemma leader_can_withdraw_and_still_lead_witness :
  highestBidder
    (auctionAt (transact Demo.market (withdraw_tx Demo.alice 6 1)
                  (Demo.after Demo.first_bid)).1 1) = Demo.alice.
Proof.
  destruct (leader_can_withdraw_and_still_lead Demo.market Demo.alice 50 5 1
              (Demo.after Demo.opened) (Demo.after Demo.first_bid) None [] open_world)
    with (now2 := 6) as (E & _ & H & _); [by_compute | by_compute | by_compute |].
  change (in_world open_world (withdraw_tx Demo.alice 6 1)) with (withdraw_tx Demo.alice 6 1) in E.
  rewrite E by reflexivity. exact H.
Defined.

(** X11: the outcomes of [finalizeAuction] on an active auction whose end
    time has passed.  Without a bidder it only closes the auction.  With a
    bidder it reverts unless the marketplace is the registry owner of the
    asset, reverts when the contract holds less than the highest bid, and
    reverts when the recorded seller does not take the payment; otherwise
    the asset goes to the highest bidder, whose escrow entry is zeroed, the
    recorded seller is paid the highest bid, and the listing and the sold
    counter are left untouched. *)
Theorem finalize_outcomes self caller now t s w :
  active (auctionAt s t) = true → now >= endTimestamp (auctionAt s t) →
  let a := auctionAt s t in
  let tx := in_world w (finalize_tx caller now t) in
  (highestBidder a = 0 →
     transact self tx s = (putAuction t (closed_auction a) s, Success None [])) ∧
  (highestBidder a ≠ 0 → ownerAt s t ≠ self →
     transact self tx s
     = (s, Failure (if decide (ownerAt s t = 0) then ERC721InvalidTokenId
                    else ERC721IncorrectOwner))) ∧
  (highestBidder a ≠ 0 → ownerAt s t = self → self ≠ 0 → balance s < highestBid a →
     transact self tx s = (s, Failure TransferFailed)) ∧
  (highestBidder a ≠ 0 → ownerAt s t = self → self ≠ 0 →
   takes_ether w (item_seller (itemAt s t)) ≠ true →
     transact self tx s = (s, Failure TransferFailed)) ∧
  (highestBidder a ≠ 0 → ownerAt s t = self → self ≠ 0 → highestBid a ≤ balance s →
   takes_ether w (item_seller (itemAt s t)) = true →
     transact self tx s
     = (settled_state t s,
        Success None [Sent (item_seller (itemAt s t)) (highestBid a) (settled_state t s)]) ∧
     ownerAt (settled_state t s) t = highestBidder a ∧
     bidAt (settled_state t s) t (highestBidder a) = 0 ∧
     active (auctionAt (settled_state t s) t) = false ∧
     (∀ id, itemAt (settled_state t s) id = itemAt s id) ∧
     _itemsSold (settled_state t s) = _itemsSold s).
Proof.
  intros Hact Hnow a tx.
  assert (Hentry : entry tx s = s) by (by apply entry_no_value).
  assert (Hexec : exec (tx_call tx) = no_result (finalizeAuction t)) by reflexivity.
  assert (Hpay : payable (tx_call tx) = true ∨ tx_value tx = 0) by (by right).
  assert (Henv : env_of self tx
                 = {| this := self; msg_sender := caller; msg_value := 0;
                      block_timestamp := now; world := w |}) by reflexivity.
  split; [|split; [|split; [|split]]].
  - intros Hz. apply transact_body_ok; [done|].
    assert (E : finalizeAuction t (env_of self tx) s
                = Ok () (putAuction t (closed_auction a) s) []).
    { apply finalizeAuction_ok. split; [done|]. split; [done|]. left. by repeat split. }
    unfold body. rewrite Hentry, Hexec. unfold no_result. by rewrite E.
  - intros Hb Ho.
    apply (transact_body_revert _ _ _ _ (putAuction t (closed_auction a) s)); [done|].
    unfold body. rewrite Hentry, Hexec, Henv. clear Hentry Hexec Hpay Henv.
    subst a tx. revert Hact Hnow Hb Ho.
    unfold no_result, finalizeAuction, closed_auction. steps; intros; try congruence; try lia.
    all: rewrite ?lookup_insert_eq in *; cbn in *; try congruence.
    all: repeat (case_decide; cbn in * ); try congruence.
  - intros Hb Ho Hs Hlow.
    apply (transact_body_revert _ _ _ _
             (putBid t (highestBidder a) 0
                (moveToken t (highestBidder a) (putAuction t (closed_auction a) s))));
      [done|].
    unfold body. rewrite Hentry, Hexec, Henv. clear Hentry Hexec Hpay Henv.
    subst a tx. revert Hact Hnow Hb Ho Hs Hlow.
    unfold no_result, finalizeAuction, closed_auction. steps; intros; try congruence; try lia.
    all: rewrite ?lookup_insert_eq in *; cbn in *; try congruence.
    all: repeat (case_decide; cbn in * ); try congruence; try lia.
  - intros Hb Ho Hs Hw.
    apply (transact_body_revert _ _ _ _
             (putBid t (highestBidder a) 0
                (moveToken t (highestBidder a) (putAuction t (closed_auction a) s))));
      [done|].
    unfold body. rewrite Hentry, Hexec, Henv. clear Hentry Hexec Hpay Henv.
    subst a tx. revert Hact Hnow Hb Ho Hs Hw.
    unfold no_result, finalizeAuction, closed_auction. steps; intros; try congruence; try lia.
    all: rewrite ?lookup_insert_eq in *; cbn in *; try congruence.
    all: repeat (case_decide; cbn in * ); try congruence; try lia.
  - intros Hb Ho Hs Hfit Hw. split.
    + apply transact_body_ok; [done|].
      assert (E : finalizeAuction t (env_of self tx) s
                  = Ok () (settled_state t s)
                      [Sent (item_seller (itemAt s t)) (highestBid a) (settled_state t s)]).
      { apply finalizeAuction_ok. split; [done|]. split; [done|]. right. by repeat split. }
      unfold body. rewrite Hentry, Hexec. unfold no_result. by rewrite E.
    + repeat split; by frame.
Qed.

Lemma finalize_outcomes_witness :
  ownerAt (settled_state 1 (Demo.after Demo.outbid)) 1 = Demo.bob.
Proof.
  destruct (finalize_outcomes Demo.market Demo.alice 1000 1 (Demo.after Demo.outbid) open_world)
    as (_ & _ & _ & _ & H); [by_compute | by_compute |].
  destruct H as (_ & H & _);
    [by_compute | by_compute | by_compute | by_compute | by_compute |].
  rewrite H. by_compute.
Defined.

Lemma transact_bidder_not_self self tx s :
  self ≠ 0 → wf_tx self tx →
  (∀ t, highestBidder (auctionAt s t) ≠ self) →
  ∀ t, highestBidder (auctionAt (transact self tx s).1 t) ≠ self.
Proof.
  intros Hs (_ & Hne & _) H t. specialize (H t).
  destruct (transact self tx s) as [s' [r log|e]] eqn:E; cbn;
    [|by apply transact_failure in E as ->].
  by_call E C.
  all: try (destruct E as [(?&?&?)|(?&?&?&?&?&?)]).
  all: subst; try (by frame).
  all: destruct (decide (tokenId = t)); subst; by frame.
Qed.

Lemma reachable_bidder_not_self self operator txs :
  self ≠ 0 → Forall (wf_tx self) txs →
  ∀ t, highestBidder (auctionAt (run self txs (deploy operator)) t) ≠ self.
Proof.
  intros Hs Hwf.
  assert (H0 : ∀ t, highestBidder (auctionAt (deploy operator) t) ≠ self).
  { intros t. unfold auctionAt. cbn. rewrite lookup_empty. cbn. congruence. }
  revert H0. generalize (deploy operator).
  induction Hwf as [|tx txs Htx Hrest IH]; intros s H0; cbn [run]; [done|].
  apply IH. by apply transact_bidder_not_self.
Qed.

Lemma relist_not_owner self caller attached now t price s :
  item_owner (itemAt s t) ≠ caller →
  transact self (relist_tx caller attached now t price) s = (s, Failure NotOwner).
Proof.
  intros Hne.
  apply (transact_body_revert _ _ _ _ (entry (relist_tx caller attached now t price) s));
    [by left|].
  unfold body, exec, relist_tx, resellToken. steps; congruence.
Qed.

Lemma buy_needs_custody self w caller attached now t s :
  ownerAt s t ≠ self →
  ∃ e, transact self (in_world w (buy_tx caller attached now t)) s = (s, Failure e).
Proof.
  intros Ho.
  destruct (transact self (in_world w (buy_tx caller attached now t)) s)
    as [s2 [r2 log2|e]] eqn:E2.
  - exfalso. apply transact_success in E2 as [_ E2]. apply body_ok in E2 as [_ E2].
    apply createMarketSale_ok in E2. destruct E2 as (_ & E2 & _). by frame.
  - exists e. apply transact_failure in E2. by rewrite E2.
Qed.

(** X12: [finalizeAuction] hands the asset to the winner without touching
    the listing.  In a state reached from deployment, after an auction is
    finalized to a winner the registry owner is the winner, who is never the
    marketplace, while every listing and the sold counter are as before.  So
    every [createMarketSale] on the asset reverts; the winner's
    [resellToken] fails with NotOwner unless the listing already recorded
    the winner as owner; and a listing that recorded the marketplace as
    owner is still among what [fetchMarketItems] returns, whenever it
    returns. *)
Theorem auctioned_asset_stays_listed self operator txs caller now t w s' r log :
  self ≠ 0 → Forall (wf_tx self) txs → Z.of_nat (length txs) < MAX_UINT256 →
  let s := run self txs (deploy operator) in
  let winner := highestBidder (auctionAt s t) in
  winner ≠ 0 →
  transact self (in_world w (finalize_tx caller now t)) s = (s', Success r log) →
  ownerAt s' t = winner ∧ winner ≠ self ∧
  (∀ id, itemAt s' id = itemAt s id) ∧
  _itemsSold s' = _itemsSold s ∧
  (∀ w' b v n, ∃ e, transact self (in_world w' (buy_tx b v n t)) s' = (s', Failure e)) ∧
  (item_owner (itemAt s t) ≠ winner →
     ∀ v n p, transact self (relist_tx winner v n t p) s' = (s', Failure NotOwner)) ∧
  (item_owner (itemAt s t) = self →
     ∀ env items s2 log2, this env = self →
       fetchMarketItems env s' = Ok items s2 log2 → itemAt s' t ∈ items).
Proof.
  intros Hself Hwf Hlen s winner Hw E.
  destruct (reachable_Inv self operator txs Hself Hwf Hlen) as [HI _]. fold s in HI.
  pose proof (reachable_bidder_not_self self operator txs Hself Hwf t) as Hws.
  fold s in Hws. fold winner in Hws.
  apply transact_success in E as [_ E]. apply body_ok in E as [_ E].
  apply finalizeAuction_ok in E as (_ & _ & [(Hz & _)|(_ & Ho & _ & [Hb _] & -> & _)]);
    [done|].
  assert (Hentry : entry (in_world w (finalize_tx caller now t)) s = s)
    by (by apply entry_no_value).
  rewrite Hentry in *.
  cbn [env_of this] in Ho.
  pose proof (Inv_in_range_owner self s t HI ltac:(congruence)) as Hr.
  pose proof (Inv_settled self s t Hself Hw Ho Hb HI) as HI'.
  assert (Hown : ownerAt (settled_state t s) t = winner) by (by frame).
  assert (Hit : ∀ id, itemAt (settled_state t s) id = itemAt s id) by done.
  assert (Hids : _tokenIds (settled_state t s) = _tokenIds s) by done.
  split; [done|]. split; [done|]. split; [done|]. split; [done|]. split; [|split].
  - intros w' b v n. apply buy_needs_custody. rewrite Hown. done.
  - intros Hne v n p. apply relist_not_owner. by rewrite Hit.
  - intros Hheld env items s2 log2 Henv Hfetch.
    apply fetchMarketItems_returns in Hfetch as (_ & _ & -> & _); [|by rewrite Henv].
    rewrite Henv. apply held_items_elem. rewrite Hit. split; [done|].
    exists t. rewrite Hids. split; [lia|]. by rewrite Hit.
Qed.

Lemma auctioned_asset_stays_listed_witness :
  ownerAt (settled_state 1 (Demo.after Demo.outbid)) 1 = Demo.bob ∧
  itemAt (settled_state 1 (Demo.after Demo.outbid)) 1 = itemAt (Demo.after Demo.outbid) 1.
Proof.
  destruct (demo_wf Demo.outbid eq_refl) as [Hwf Hlen].
  destruct (auctioned_asset_stays_listed Demo.market Demo.operator Demo.outbid Demo.alice
              1000 1 open_world (settled_state 1 (Demo.after Demo.outbid)) None
              [Sent Demo.buyer 60 (settled_state 1 (Demo.after Demo.outbid))]
              ltac:(done) Hwf Hlen) as (H1 & _ & H2 & _); [by_compute | by_compute |].
  split; [rewrite H1; by_compute | apply H2].
Defined.

Lemma transact_relist_ok self caller attached now t price s :
  item_owner (itemAt s t) = caller → attached = listingPrice s → _itemsSold s > 0 →
  ownerAt s t = caller → caller ≠ 0 → self ≠ 0 →
  transact self (relist_tx caller attached now t price) s
  = (relist_state t price caller self (entry (relist_tx caller attached now t price) s),
     Success None []).
Proof.
  intros Hi Hv Hsold Ho Hc Hs. apply transact_body_ok; [by left|].
  assert (E : resellToken t price (env_of self (relist_tx caller attached now t price))
                (entry (relist_tx caller attached now t price) s)
              = Ok () (relist_state t price caller self
                         (entry (relist_tx caller attached now t price) s)) []).
  { apply resellToken_ok. cbn. by repeat split. }
  unfold body.
  change (exec (tx_call (relist_tx caller attached now t price)))
    with (no_result (resellToken t price)).
  unfold no_result. by rewrite E.
Qed.

(** X13: buying and relisting compose to a round trip.  After a
    successful [createMarketSale] the buyer can relist with the listing fee
    at any price: the asset is back in the marketplace's custody, unsold, at
    the new price with the buyer as seller, and the sold counter is what it
    was before the purchase. *)
Theorem buy_then_relist self b attached now t s s1 r1 l1 now2 price :
  0 ≤ _itemsSold s < MAX_UINT256 →
  transact self (buy_tx b attached now t) s = (s1, Success r1 l1) →
  let s2 := relist_state t price b self (entry (relist_tx b (listingPrice s) now2 t price) s1) in
  transact self (relist_tx b (listingPrice s) now2 t price) s1 = (s2, Success None []) ∧
  itemAt s2 t = {| item_tokenId := item_tokenId (itemAt s t); item_seller := b;
                   item_owner := self; item_price := price; item_sold := false |} ∧
  ownerAt s2 t = self ∧
  _itemsSold s2 = _itemsSold s ∧
  balance s2 = balance s + attached.
Proof.
  intros Hr E s2.
  apply transact_success in E as [_ E]. apply body_ok in E as [_ E].
  apply createMarketSale_ok in E as (Hv & Ho & Hs & Hb & Hfee & -> & _).
  cbn [env_of this msg_sender msg_value buy_tx tx_sender tx_value] in *.
  set (s0 := entry (buy_tx b attached now t) s) in *.
  destruct (sale_state_reads t b s0) as (Hi1 & Ho1 & Hsold1 & Hbal1).
  assert (Hf1 : listingPrice (sale_state t b s0) = listingPrice s) by reflexivity.
  set (s1 := sale_state t b s0) in *.
  assert (Hw : wrap (_itemsSold s + 1) = _itemsSold s + 1) by (apply wrap_small; lia).
  split.
  - apply transact_relist_ok; try done.
    + by rewrite Hi1.
    + rewrite Hsold1. change (_itemsSold s0) with (_itemsSold s). lia.
  - destruct (relist_state_reads t price b self
                (entry (relist_tx b (listingPrice s) now2 t price) s1))
      as (Hi2 & Ho2 & _ & _ & Hbal2).
    fold s2 in Hi2, Ho2, Hbal2.
    rewrite Hi2, Ho2, Hbal2. unfold relist_item.
    change (itemAt (entry (relist_tx b (listingPrice s) now2 t price) s1) t)
      with (itemAt s1 t).
    rewrite Hi1. cbn [sale_item item_tokenId].
    change (itemAt s0 t) with (itemAt s t).
    split; [done|]. split; [done|]. split.
    + change (_itemsSold s2) with (_itemsSold s1 - 1). rewrite Hsold1.
      change (_itemsSold s0) with (_itemsSold s). lia.
    + cbn [entry set_balance balance relist_tx tx_value]. rewrite Hbal1.
      change (listingPrice s0) with (listingPrice s).
      change (balance s0) with (balance s + attached). lia.
Qed.

Lemma buy_then_relist_witness :
  _itemsSold (relist_state 1 7 Demo.buyer Demo.market
                (entry (relist_tx Demo.buyer Demo.fee 3 1 7) (Demo.after Demo.bought)))
  = _itemsSold (Demo.after Demo.listed).
Proof.
  destruct (buy_then_relist Demo.market Demo.buyer 100 2 1 (Demo.after Demo.listed)
              (Demo.after Demo.bought) None [Sent Demo.operator Demo.fee (Demo.after Demo.bought)]
              3 7) as (_ & _ & _ & H & _); [by_compute | by_compute |].
  exact H.
Defined.

(** X14: the start price is stored but never compared.  Right after
    [startAuction], any positive bid placed before the end time is accepted
    and leads, whatever the start price. *)
Theorem start_price_not_enforced self seller now t startPrice endTimestamp s s1 r l :
  transact self (start_tx seller now t startPrice endTimestamp) s = (s1, Success r l) →
  ∀ bidder v now2, 0 < v → now2 < endTimestamp →
    transact self (bid_tx bidder v now2 t) s1
    = (bid_state t bidder v (entry (bid_tx bidder v now2 t) s1), Success None []) ∧
    highestBidder (auctionAt (bid_state t bidder v (entry (bid_tx bidder v now2 t) s1)) t)
    = bidder ∧
    highestBid (auctionAt (bid_state t bidder v (entry (bid_tx bidder v now2 t) s1)) t) = v.
Proof.
  intros E bidder v now2 Hv Hnow.
  apply transact_success in E as [_ E]. apply body_ok in E as [_ E].
  apply startAuction_ok in E as (_ & _ & -> & _).
  set (s0 := entry (start_tx seller now t startPrice endTimestamp) s).
  assert (Ha : auctionAt (putAuction t (fresh_auction startPrice endTimestamp) s0) t
               = fresh_auction startPrice endTimestamp).
  { unfold auctionAt, putAuction, set_auctions. cbn. by rewrite lookup_insert_eq. }
  set (s1 := putAuction t (fresh_auction startPrice endTimestamp) s0) in *.
  destruct (bid_state_reads t bidder v (entry (bid_tx bidder v now2 t) s1))
    as (Hl & Hh & _).
  split; [|by split].
  apply transact_body_ok; [by left|].
  assert (E : placeBid t (env_of self (bid_tx bidder v now2 t))
                (entry (bid_tx bidder v now2 t) s1)
              = Ok () (bid_state t bidder v (entry (bid_tx bidder v now2 t) s1)) []).
  { apply placeBid_ok.
    change (auctionAt (entry (bid_tx bidder v now2 t) s1) t) with (auctionAt s1 t).
    rewrite Ha. cbn. repeat split; try done; lia. }
  unfold body.
  change (exec (tx_call (bid_tx bidder v now2 t))) with (no_result (placeBid t)).
  unfold no_result. by rewrite E.
Qed.

Lemma start_price_not_enforced_witness :
  highestBid
    (auctionAt (bid_state 1 Demo.alice 3
                  (entry (bid_tx Demo.alice 3 4 1)
                     (run Demo.market [start_tx Demo.buyer 3 1 10 1000]
                        (Demo.after Demo.bought)))) 1) = 3.
Proof.
  destruct (start_price_not_enforced Demo.market Demo.buyer 3 1 10 1000
              (Demo.after Demo.bought)
              (run Demo.market [start_tx Demo.buyer 3 1 10 1000] (Demo.after Demo.bought))
              None [] ltac:(by_compute) Demo.alice 3 4 ltac:(lia) ltac:(lia))
    as (_ & _ & H).
  exact H.
Defined.

(** X15: [resellToken] fails with NotOwner unless the caller is the
    listing's recorded owner, with FeeMismatch unless the listing fee is
    attached, and with the counter's underflow error when the sold counter
    is zero.  On success the caller was also the registry owner; the listing
    becomes unsold at the new price with the caller as seller and the
    marketplace as owner, custody moves to the marketplace, the sold counter
    drops by one and the fee stays in the contract. *)
Theorem relist_spec self caller attached now t price s :
  let tx := relist_tx caller attached now t price in
  (item_owner (itemAt s t) ≠ caller → transact self tx s = (s, Failure NotOwner)) ∧
  (item_owner (itemAt s t) = caller → attached ≠ listingPrice s →
     transact self tx s = (s, Failure FeeMismatch)) ∧
  (item_owner (itemAt s t) = caller → attached = listingPrice s → _itemsSold s ≤ 0 →
     transact self tx s = (s, Failure CounterUnderflow)) ∧
  (∀ s' r log, transact self tx s = (s', Success r log) →
     item_owner (itemAt s t) = caller ∧ attached = listingPrice s ∧ ownerAt s t = caller ∧
     s' = relist_state t price caller self (entry tx s) ∧ log = [] ∧
     itemAt s' t = {| item_tokenId := item_tokenId (itemAt s t); item_seller := caller;
                      item_owner := self; item_price := price; item_sold := false |} ∧
     ownerAt s' t = self ∧
     _itemsSold s' = _itemsSold s - 1 ∧
     balance s' = balance s + attached).
Proof.
  intros tx. split; [|split; [|split]].
  - apply relist_not_owner.
  - intros Ho Hf. apply (transact_body_revert _ _ _ _ (entry tx s)); [by left|].
    unfold body, exec, tx, relist_tx, resellToken. steps; congruence.
  - intros Ho Hf Hz.
    apply (transact_body_revert _ _ _ _
             (putItem t (relist_item t price caller self (entry tx s)) (entry tx s)));
      [by left|].
    revert Ho Hf Hz.
    unfold body, exec, tx, relist_tx, resellToken, relist_item. steps; intros; try congruence; lia.
  - intros s' r log E.
    apply transact_success in E as [_ E]. apply body_ok in E as [_ E].
    apply resellToken_ok in E as (Hi & Hv & _ & Ho & _ & _ & -> & ->).
    cbn [env_of this msg_sender msg_value tx relist_tx tx_sender tx_value] in *.
    destruct (relist_state_reads t price caller self (entry tx s)) as (Hi2 & Ho2 & _ & _ & Hb2).
    split; [done|]. split; [done|]. split; [done|]. split; [done|]. split; [done|].
    rewrite Hi2, Ho2, Hb2. by repeat split.
Qed.

(** X16: [startAuction] fails with the registry's invalid-token error for
    an asset without owner and with NotAuthorized for anyone but the registry
    owner.  On success the auction record of the asset is overwritten by a
    fresh active one without bidder -- also when an auction with bids was
    running -- while the other auctions, every escrow entry and the balance
    are unchanged. *)
Theorem startAuction_spec self caller now t p e s :
  let tx := start_tx caller now t p e in
  (ownerAt s t = 0 → transact self tx s = (s, Failure ERC721InvalidTokenId)) ∧
  (ownerAt s t ≠ 0 → caller ≠ ownerAt s t → transact self tx s = (s, Failure NotAuthorized)) ∧
  (ownerAt s t ≠ 0 → caller = ownerAt s t →
     transact self tx s = (putAuction t (fresh_auction p e) (entry tx s), Success None []) ∧
     auctionAt (transact self tx s).1 t = fresh_auction p e ∧
     (∀ t', t' ≠ t → auctionAt (transact self tx s).1 t' = auctionAt s t') ∧
     (∀ id who, bidAt (transact self tx s).1 id who = bidAt s id who) ∧
     balance (transact self tx s).1 = balance s).
Proof.
  intros tx. split; [|split].
  - intros Hz. apply (transact_body_revert _ _ _ _ (entry tx s)); [by right|].
    unfold body, exec, tx, start_tx, startAuction. steps; congruence.
  - intros Hz Hne. apply (transact_body_revert _ _ _ _ (entry tx s)); [by right|].
    unfold body, exec, tx, start_tx, startAuction. steps; congruence.
  - intros Hz ->.
    assert (E : transact self tx s
                = (putAuction t (fresh_auction p e) (entry tx s), Success None [])).
    { apply transact_body_ok; [by right|].
      unfold body, exec, tx, start_tx, startAuction, fresh_auction. steps; congruence. }
    rewrite E. cbn [fst]. split; [done|]. split; [|split; [|split]].
    + unfold auctionAt, putAuction, set_auctions. cbn. by rewrite lookup_insert_eq.
    + intros t' Hne. unfold auctionAt, putAuction, set_auctions. cbn.
      by rewrite lookup_insert_ne.
    + done.
    + cbn. lia.
Qed.

(** X17: [withdrawBid] fails with NothingToWithdraw when the caller's
    escrow entry is zero, and reverts when the contract holds less than the
    entry or the caller does not take the payment; otherwise it pays the
    caller exactly the entry, zeroes it, and leaves every other escrow entry
    and every auction record as they were. *)
Theorem withdrawBid_spec self caller now t s w :
  let tx := in_world w (withdraw_tx caller now t) in
  (bidAt s t caller ≤ 0 → transact self tx s = (s, Failure NothingToWithdraw)) ∧
  (0 < bidAt s t caller → balance s < bidAt s t caller →
     transact self tx s = (s, Failure TransferFailed)) ∧
  (0 < bidAt s t caller → takes_ether w caller ≠ true →
     transact self tx s = (s, Failure TransferFailed)) ∧
  (0 < bidAt s t caller → bidAt s t caller ≤ balance s → takes_ether w caller = true →
     let s' := set_balance (balance s - bidAt s t caller) (putBid t caller 0 s) in
     transact self tx s = (s', Success None [Sent caller (bidAt s t caller) s']) ∧
     bidAt s' t caller = 0 ∧
     (∀ id who, (id, who) ≠ (t, caller) → bidAt s' id who = bidAt s id who) ∧
     (∀ id, auctionAt s' id = auctionAt s id)).
Proof.
  intros tx. split; [|split; [|split]].
  - intros Hz. apply (transact_body_revert _ _ _ _ (entry tx s)); [by right|].
    revert Hz. unfold body, exec, tx, in_world, withdraw_tx, withdrawBid.
    steps; intros; first [done|lia].
  - intros Hp Hlow.
    apply (transact_body_revert _ _ _ _ (putBid t caller 0 (entry tx s))); [by right|].
    revert Hp Hlow. unfold body, exec, tx, in_world, withdraw_tx, withdrawBid.
    steps; intros; first [done|lia].
  - intros Hp Hw.
    apply (transact_body_revert _ _ _ _ (putBid t caller 0 (entry tx s))); [by right|].
    revert Hp Hw. unfold body, exec, tx, in_world, withdraw_tx, withdrawBid.
    steps; intros; first [done|lia].
  - intros Hp Hfit Hw s'. split; [by apply transact_withdraw_in|]. split; [|split].
    + unfold bidAt, s', set_balance, putBid, set_bids. cbn. by rewrite lookup_insert_eq.
    + intros id who Hne. unfold bidAt, s', set_balance, putBid, set_bids. cbn.
      by rewrite lookup_insert_ne.
    + done.
Qed.

Lemma held_items_snoc self s n :
  held_items self s 0 (S n)
  = held_items self s 0 n
    ++ (if decide (item_owner (itemAt s (Z.of_nat (S n))) = self)
        then [itemAt s (Z.of_nat (S n))] else []).
Proof.
  unfold held_items. rewrite seqZ_S, map_app, filter_app. cbn [map].
  replace (0 + 1 + Z.of_nat n) with (Z.of_nat (S n)) by lia.
  rewrite filter_cons, filter_nil. by case_decide.
Qed.

Lemma held_items_ids_sorted self s n :
  (∀ id, 1 ≤ id ≤ Z.of_nat n → item_tokenId (itemAt s id) = id) →
  StronglySorted Z.lt (map item_tokenId (held_items self s 0 n)).
Proof.
  induction n as [|k IH]; intros Hid.
  - change (held_items self s 0 0) with (@nil MarketItem). constructor.
  - rewrite held_items_snoc, map_app. apply StronglySorted_app. split; [|split].
    + intros x1 x2 Hx1 Hx2.
      apply list_elem_of_fmap in Hx1 as (it & -> & Hit).
      apply held_items_elem in Hit as (_ & id & Hr & ->).
      rewrite Hid by lia.
      case_decide; [|by apply elem_of_nil in Hx2].
      apply list_elem_of_singleton in Hx2 as ->. rewrite Hid by lia. lia.
    + apply IH. intros; apply Hid; lia.
    + case_decide; repeat constructor.
Qed.

(** X18: what [fetchMarketItems] returns in a state reached from
    deployment.  A listing marked sold is never recorded as owned by the
    marketplace; the listings it holds are unsold, carry the id they are
    stored under, and come in increasing id order; and the sold counter is
    never too small for them.  Whenever [fetchMarketItems] returns, it
    returns exactly these listings, without any zero entry.  It returns
    when the id counter minus the sold counter is their number (and no more
    than the longest array), and reverts with a panic when the sold counter
    has run ahead. *)
Theorem fetched_listings_are_unsold self operator txs env :
  self ≠ 0 → Forall (wf_tx self) txs → Z.of_nat (length txs) < MAX_UINT256 →
  this env = self →
  let s := run self txs (deploy operator) in
  let held := held_items self s 0 (Z.to_nat (_tokenIds s)) in
  (∀ id, item_sold (itemAt s id) = true → item_owner (itemAt s id) ≠ self) ∧
  Forall (λ it, item_sold it = false ∧ item_owner it = self ∧
                1 ≤ item_tokenId it ≤ _tokenIds s ∧
                itemAt s (item_tokenId it) = it) held ∧
  StronglySorted Z.lt (map item_tokenId held) ∧
  _tokenIds s ≤ Z.of_nat (length held) + _itemsSold s ∧
  (∀ items s' log, fetchMarketItems env s = Ok items s' log →
     items = held ∧ s' = s ∧ log = []) ∧
  (Z.of_nat (length held) + _itemsSold s = _tokenIds s →
   _tokenIds s - _itemsSold s ≤ MAX_ARRAY_LENGTH →
     fetchMarketItems env s = Ok held s []) ∧
  (_tokenIds s < Z.of_nat (length held) + _itemsSold s →
     ∃ e, fetchMarketItems env s = Revert e s ∧
          (e = PanicOverflow ∨ e = PanicAlloc ∨ e = PanicIndex)).
Proof.
  intros Hself Hwf Hlen Henv s held.
  destruct (reachable_Inv self operator txs Hself Hwf Hlen) as [HI _]. fold s in HI.
  pose proof HI as [Hids Hsc Hbal Hfresh Hminted Hsold Hcount].
  assert (Hlenheld : Z.of_nat (length held) = held_count self s (Z.to_nat (_tokenIds s)))
    by apply held_items_length.
  split; [|split; [|split; [|split; [|split; [|split]]]]].
  - intros id Hs. destruct (decide (1 ≤ id ≤ _tokenIds s)) as [Hr|Hr].
    + by apply Hsold.
    + destruct (Hfresh id Hr) as [Hz _]. rewrite Hz in Hs. discriminate.
  - apply Forall_forall. intros it Hit.
    apply held_items_elem in Hit as (Ho & id & Hr & ->).
    rewrite Z2Nat.id in Hr by lia.
    destruct (Hminted id Hr) as (_ & _ & Hid). rewrite Hid.
    split; [|repeat split; first [done | lia]].
    destruct (item_sold (itemAt s id)) eqn:Hsd; [|done].
    apply Hsold in Hsd; [|done]. done.
  - apply held_items_ids_sorted. intros id Hr. rewrite Z2Nat.id in Hr by lia.
    by destruct (Hminted id Hr) as (_ & _ & ?).
  - lia.
  - intros items s' log Hfetch.
    apply fetchMarketItems_returns in Hfetch as (-> & -> & -> & _); by rewrite Henv.
  - intros Heq Hfit. unfold held. rewrite <- Henv.
    apply fetchMarketItems_exact; rewrite ?Henv; lia.
  - intros Hahead. rewrite <- Henv in Hlenheld.
    destruct (decide (_tokenIds s < _itemsSold s)) as [Hlt|Hle].
    { exists PanicOverflow. split; [by apply fetchMarketItems_underflow|by left]. }
    destruct (decide (MAX_ARRAY_LENGTH < _tokenIds s - _itemsSold s)) as [Hlong|Hfit].
    { exists PanicAlloc. split; [apply fetchMarketItems_too_long; lia|]. right. by left. }
    exists PanicIndex. split; [apply fetchMarketItems_overrun; lia|]. right. by right.
Qed.

Lemma fetched_listings_are_unsold_witness :
  fetchMarketItems (env_of Demo.market (withdraw_tx Demo.alice 7 1)) (Demo.after Demo.outbid)
  = Ok (held_items Demo.market (Demo.after Demo.outbid) 0
          (Z.to_nat (_tokenIds (Demo.after Demo.outbid)))) (Demo.after Demo.outbid) [].
Proof.
  destruct (demo_wf Demo.outbid eq_refl) as [Hwf Hlen].
  destruct (fetched_listings_are_unsold Demo.market Demo.operator Demo.outbid
              (env_of Demo.market (withdraw_tx Demo.alice 7 1)) ltac:(done) Hwf Hlen eq_refl)
    as (_ & _ & _ & _ & _ & H & _).
  apply H; by_compute.
Defined.

Lemma js_slice_prefix {A} (str : list A) (n : Z) :
  0 ≤ n → js_slice str 0 n = take (Z.to_nat n) str.
Proof.
  intros Hn. unfold js_slice. repeat case_decide; try lia.
  replace (Z.to_nat (Z.min 0 (Z.of_nat (length str)))) with O by lia. cbn [drop].
  destruct (decide (n ≤ Z.of_nat (length str))).
  - f_equal. lia.
  - rewrite (take_ge str (Z.to_nat n)) by lia. apply take_ge. lia.
Qed.

Lemma js_slice_from_nonneg {A} (str : list A) (k : Z) :
  0 ≤ k → js_slice_from str k = drop (Z.to_nat k) str.
Proof.
  intros Hk. unfold js_slice_from, js_slice. repeat case_decide; try lia.
  destruct (decide (k ≤ Z.of_nat (length str))).
  - replace (Z.to_nat (Z.min k (Z.of_nat (length str)))) with (Z.to_nat k) by lia.
    apply take_ge. rewrite length_drop. lia.
  - replace (Z.to_nat (Z.min k (Z.of_nat (length str)))) with (length str) by lia.
    rewrite drop_all. rewrite drop_ge by lia. by destruct (Z.to_nat _).
Qed.

Lemma js_slice_from_neg {A} (str : list A) (k : Z) :
  k < 0 → js_slice_from str k = drop (Z.to_nat (Z.of_nat (length str) + k)) str.
Proof.
  intros Hk. unfold js_slice_from, js_slice. repeat case_decide; try lia.
  replace (Z.to_nat (Z.max (Z.of_nat (length str) + k) 0))
    with (Z.to_nat (Z.of_nat (length str) + k)) by lia.
  apply take_ge. rewrite length_drop. lia.
Qed.

Lemma shortenAddress_nonempty (address : list ascii) :
  address ≠ [] →
  shortenAddress address
  = js_slice address 0 5 ++ dots ++ js_slice_from address (Z.of_nat (length address) - 4).
Proof. by destruct address. Qed.

(** X19: [shortenAddress] maps the empty string to the empty string; a
    string of at least 4 characters to its first 5 characters, three dots
    and its last 4 characters (12 characters in all once the input has 9 or
    more); and a shorter non-empty string to itself, three dots and the
    suffix that [slice] takes at the negative index [length - 4]. *)
Theorem shortenAddress_spec (address : list ascii) :
  (address = [] → shortenAddress address = []) ∧
  (4 ≤ length address →
     shortenAddress address
     = take 5 address ++ dots ++ drop (length address - 4) address)%nat ∧
  (9 ≤ length address → length (shortenAddress address) = 12)%nat ∧
  (1 ≤ length address < 4 →
     shortenAddress address
     = address ++ dots ++ drop (2 * length address - 4) address)%nat.
Proof.
  assert (Hne : (1 ≤ length address)%nat → address ≠ []).
  { intros Hl ->. cbn in Hl. lia. }
  split; [|split; [|split]].
  - by intros ->.
  - intros Hlen. rewrite shortenAddress_nonempty by (apply Hne; lia).
    rewrite js_slice_prefix by lia. rewrite js_slice_from_nonneg by lia.
    by replace (Z.to_nat (Z.of_nat (length address) - 4)) with (length address - 4)%nat by lia.
  - intros Hlen. rewrite shortenAddress_nonempty by (apply Hne; lia).
    rewrite js_slice_prefix by lia. rewrite js_slice_from_nonneg by lia.
    rewrite !length_app, length_take, length_drop.
    change (length dots) with 3%nat. lia.
  - intros Hlen. rewrite shortenAddress_nonempty by (apply Hne; lia).
    rewrite js_slice_prefix by lia. rewrite js_slice_from_neg by lia.
    rewrite take_ge by lia.
    by replace (Z.to_nat (Z.of_nat (length address) + (Z.of_nat (length address) - 4)))
      with (2 * length address - 4)%nat by lia.
Qed.

Lemma shortenAddress_spec_witness :
  shortenAddress (String.list_ascii_of_string "0x71C7656EC7ab88b098defB751B7401B5f6d8976F")
  = String.list_ascii_of_string "0x71C...976F".
Proof.
  destruct (shortenAddress_spec
              (String.list_ascii_of_string "0x71C7656EC7ab88b098defB751B7401B5f6d8976F"))
    as (_ & H & _).
  rewrite H; [reflexivity | cbn; lia].
Defined.

(** X20: a call writes to one asset only.  The listing, auction record,
    escrow entries, registry owner and metadata reference of every other
    asset are the same after the call as before. *)
Theorem per_asset_isolation self tx s t' :
  touched (tx_call tx) s ≠ Some t' →
  itemAt (transact self tx s).1 t' = itemAt s t' ∧
  auctionAt (transact self tx s).1 t' = auctionAt s t' ∧
  (∀ who, bidAt (transact self tx s).1 t' who = bidAt s t' who) ∧
  ownerAt (transact self tx s).1 t' = ownerAt s t' ∧
  _tokenURIs (transact self tx s).1 !! t' = _tokenURIs s !! t'.
Proof.
  intros Ht.
  destruct (transact self tx s) as [s' [r log|e]] eqn:E; cbn [fst];
    [|by apply transact_failure in E as ->].
  by_call E C.
  all: try (destruct E as [(?&?&?)|(?&?&?&?&?&?)]).
  all: cbn [touched] in Ht.
  all: assert (Hne : ∀ k : Z, Some k ≠ Some t' → k ≠ t') by (intros k Hk ->; by apply Hk).
  all: try (apply Hne in Ht).
  all: subst; repeat split; try intros who; by frame.
Qed.

Lemma per_asset_isolation_witness :
  auctionAt (transact Demo.market (bid_tx Demo.bob 60 6 1) (Demo.after Demo.first_bid)).1 2
  = auctionAt (Demo.after Demo.first_bid) 2.
Proof.
  destruct (per_asset_isolation Demo.market (bid_tx Demo.bob 60 6 1) (Demo.after Demo.first_bid) 2)
    as (_ & H & _); [by_compute | exact H].
Defined.

(** X21: [MarketItemCreated] is emitted by [createToken] alone, once,
    with the new id, the caller, the marketplace, the price and sold=false;
    no other function emits it (a relist emits nothing) or returns a value. *)
Theorem event_only_on_mint self tx s s' r log :
  transact self tx s = (s', Success r log) →
  match tx_call tx with
  | CreateToken uri price =>
      ∃ id, r = Some id ∧ log = [MarketItemCreated id (tx_sender tx) self price false]
  | _ => r = None ∧ Forall (λ ev, is_created ev = false) log
  end.
Proof.
  intros E. by_call E C.
  all: try (destruct E as [(?&?&?)|(?&?&?&?&?&?)]).
  all: subst; try (split; [done|]; repeat constructor).
  eexists. split; [done|]. done.
Qed.

Lemma event_only_on_mint_witness :
  ∃ id, Some 1 = Some id ∧
        [MarketItemCreated 1 Demo.seller Demo.market 100 false]
        = [MarketItemCreated id Demo.seller Demo.market 100 false].
Proof.
  exact (event_only_on_mint Demo.market (mint_tx Demo.seller Demo.fee 1 "ipfs://asset-1" 100)
           (deploy Demo.operator) (Demo.after Demo.listed) (Some 1)
           [MarketItemCreated 1 Demo.seller Demo.market 100 false] ltac:(by_compute)).
Defined.





(** ** The inherited entry points and the other accounts *)

(** Only the three paying functions and [safeTransferFrom] look at the
    other accounts. *)
Lemma world_irrelevant self tx s w :
  match tx_call tx with
  | CreateMarketSale _ | FinalizeAuction _ | WithdrawBid _ | SafeTransferFrom _ _ _ => True
  | _ => transact self (in_world w tx) s = transact self tx s
  end.
Proof.
  destruct tx as [sender value now call w0]. cbn [tx_call].
  destruct call; try exact I.
  all: unfold transact, body, in_world, entry;
    cbn [tx_call tx_value tx_sender tx_time tx_world exec payable negb andb].
  all: try (case_bool_decide; cbn [andb]; [|done]).
  all: unfold env_of; cbn [tx_call tx_value tx_sender tx_time tx_world].
  all: unfold_calls.
  all: steps; try done.
Qed.

(** What succeeds with some recipients succeeds, with the same result, when
    every recipient accepts. *)
Lemma refusal_only_reverts self tx s w s' r log :
  transact self (in_world w tx) s = (s', Success r log) →
  transact self (in_world open_world tx) s = (s', Success r log).
Proof.
  intros E. pose proof E as E0. apply transact_success in E0 as [Hp _].
  apply transact_success. split; [done|].
  by_call E C.
  all: unfold body; cbn [in_world tx_call] in *; rewrite C; cbn [exec]; unfold no_result.
  all: change (entry (in_world open_world tx) s) with (entry (in_world w tx) s).
  all: match goal with |- match ?f with _ => _ end = Ok ?x _ _ =>
         let Hx := fresh "Hx" in
         match x with
         | Some ?id => assert (Hx : f = Ok id s' log)
         | None => assert (Hx : f = Ok () s' log)
         end; [|by rewrite Hx]
       end.
  - apply createToken_ok. by repeat split.
  - apply resellToken_ok. by repeat split.
  - apply createMarketSale_ok. repeat split; try done; tauto.
  - apply startAuction_ok. by repeat split.
  - apply finalizeAuction_ok. split; [done|]. split; [done|].
    destruct E as [(?&?&?)|(?&?&?&?&?&?)]; [left|right]; repeat split; try done; tauto.
  - apply placeBid_ok. by repeat split.
  - apply withdrawBid_ok. repeat split; try done; tauto.
  - apply updateListingPrice_ok. by repeat split.
  - apply setTokenURI_ok. by repeat split.
  - apply approve_ok. by repeat split.
  - apply setApprovalForAll_ok. by repeat split.
  - apply transferFrom_ok. by repeat split.
  - apply safeTransferFrom_ok. by repeat split.
Qed.

(** What fails when every recipient accepts fails, with the same error,
    whatever the recipients do. *)
Lemma failure_in_every_world self tx s w s1 e :
  transact self (in_world open_world tx) s = (s1, Failure e) →
  transact self (in_world w tx) s = (s, Failure e).
Proof.
  destruct tx as [sender value now call w0].
  unfold transact, body, in_world, entry;
    cbn [tx_call tx_value tx_sender tx_time tx_world].
  destruct (negb (payable call) && bool_decide (value ≠ 0)); [congruence|].
  unfold env_of; cbn [tx_call tx_value tx_sender tx_time tx_world].
  destruct call; cbn [exec]; unfold_calls.
  all: steps; try congruence.
  all: try rewrite lookup_insert_eq in *; cbn in *.
  all: repeat (case_decide; cbn in * ); try congruence.
Qed.

(** X9: the other accounts matter only where the contract calls out.  The
    outcome of every call but [createMarketSale], [finalizeAuction],
    [withdrawBid] and the inherited [safeTransferFrom] is the same whatever
    the other accounts do.  For every call, a recipient's refusal can only
    turn a success into a revert: a call that succeeds succeeds with the
    same state, result and log when every recipient accepts, and a call
    that fails when every recipient accepts fails with the same error
    whatever they do. *)
Theorem recipients_matter_only_when_paying self tx s w :
  match tx_call tx with
  | CreateMarketSale _ | FinalizeAuction _ | WithdrawBid _ | SafeTransferFrom _ _ _ => True
  | _ => transact self (in_world w tx) s = transact self tx s
  end ∧
  (∀ s' r log, transact self (in_world w tx) s = (s', Success r log) →
     transact self (in_world open_world tx) s = (s', Success r log)) ∧
  (∀ s1 e, transact self (in_world open_world tx) s = (s1, Failure e) →
     transact self (in_world w tx) s = (s, Failure e)).
Proof.
  split; [apply world_irrelevant|]. split.
  - apply refusal_only_reverts.
  - apply failure_in_every_world.
Qed.

Lemma relist_needs_token self caller attached now t price s :
  ownerAt s t ≠ caller →
  ∃ e, transact self (relist_tx caller attached now t price) s = (s, Failure e).
Proof.
  intros Ho.
  destruct (transact self (relist_tx caller attached now t price) s)
    as [s2 [r2 log2|e]] eqn:E2.
  - exfalso. apply transact_success in E2 as [_ E2]. apply body_ok in E2 as [_ E2].
    apply resellToken_ok in E2. destruct E2 as (_ & _ & _ & E2 & _). by frame.
  - exists e. apply transact_failure in E2. by rewrite E2.
Qed.

(** X24: the inherited [transferFrom] moves the registry owner and leaves
    the marketplace's own records alone.  When it succeeds the caller was
    the owner, an operator of the owner or the approved address; afterwards
    the registry owner is the recipient and the approval is reset, while
    every listing and auction, the counters and the balance are as before.
    So the listing keeps recording the previous holder: the previous owner
    can no longer relist, the recipient cannot relist unless the listing
    already recorded them, nobody can buy the asset unless the recipient is
    the marketplace, and the recipient can start an auction on it. *)
Theorem direct_transfer_leaves_listing self caller now from to t s s' r log :
  transact self (transfer_tx caller now from to t) s = (s', Success r log) →
  from = ownerAt s t ∧ from ≠ 0 ∧ to ≠ 0 ∧ may_move s caller t ∧
  s' = moveToken t to s ∧
  ownerAt s' t = to ∧ approvedAt s' t = 0 ∧
  (∀ id, itemAt s' id = itemAt s id) ∧
  (∀ id, auctionAt s' id = auctionAt s id) ∧
  _itemsSold s' = _itemsSold s ∧ _tokenIds s' = _tokenIds s ∧ balance s' = balance s ∧
  (to ≠ from → ∀ v n p, ∃ e, transact self (relist_tx from v n t p) s' = (s', Failure e)) ∧
  (item_owner (itemAt s t) ≠ to →
     ∀ v n p, transact self (relist_tx to v n t p) s' = (s', Failure NotOwner)) ∧
  (to ≠ self →
     ∀ w b v n, ∃ e, transact self (in_world w (buy_tx b v n t)) s' = (s', Failure e)) ∧
  (∀ n p e, transact self (start_tx to n t p e) s'
            = (putAuction t (fresh_auction p e) s', Success None [])).
Proof.
  intros E.
  apply transact_success in E as [_ E]. apply body_ok in E as [_ E].
  apply transferFrom_ok in E as (Hz & Hmay & Hfrom & Hto & -> & _).
  rewrite (entry_no_value (transfer_tx caller now from to t) s) in * by done.
  cbn [env_of msg_sender transfer_tx tx_sender] in Hmay.
  assert (Hown : ownerAt (moveToken t to s) t = to) by (by frame).
  assert (Hit : ∀ id, itemAt (moveToken t to s) id = itemAt s id) by done.
  split; [done|]. split; [congruence|]. split; [done|]. split; [done|]. split; [done|].
  split; [done|]. split; [by frame|]. split; [done|]. split; [done|].
  split; [done|]. split; [done|]. split; [done|].
  split; [|split; [|split]].
  - intros Hne v n p. apply relist_needs_token. rewrite Hown. done.
  - intros Hne v n p. apply relist_not_owner. by rewrite Hit.
  - intros Hne w b v n. apply buy_needs_custody. by rewrite Hown.
  - intros n p e. apply transact_body_ok; [by right|].
    assert (Ex : startAuction t p e (env_of self (start_tx to n t p e)) (moveToken t to s)
                 = Ok () (putAuction t (fresh_auction p e) (moveToken t to s)) []).
    { apply startAuction_ok. rewrite Hown. by repeat split. }
    unfold body. rewrite (entry_no_value (start_tx to n t p e)) by done.
    change (exec (tx_call (start_tx to n t p e))) with (no_result (startAuction t p e)).
    unfold no_result. by rewrite Ex.
Qed.

Lemma direct_transfer_leaves_listing_witness :
  ownerAt (Demo.after Demo.given_away) 1 = Demo.alice ∧
  item_owner (itemAt (Demo.after Demo.given_away) 1) = Demo.buyer ∧
  transact Demo.market (relist_tx Demo.alice Demo.fee 4 1 7) (Demo.after Demo.given_away)
  = (Demo.after Demo.given_away, Failure NotOwner).
Proof.
  destruct (direct_transfer_leaves_listing Demo.market Demo.buyer 3 Demo.buyer Demo.alice 1
              (Demo.after Demo.bought) (Demo.after Demo.given_away) None [])
    as (_ & _ & _ & _ & _ & Ho & _ & Hi & _ & _ & _ & _ & _ & Hr & _); [by_compute|].
  split; [exact Ho|]. split; [rewrite Hi; by_compute|].
  apply Hr. by_compute.
Defined.

(** The marketplace never approves anyone for what it holds. *)
Lemma transact_sealed self tx s :
  wf_tx self tx → custody_sealed self s → custody_sealed self (transact self tx s).1.
Proof.
  intros (Hs0 & Hss & _) [Hop Hap].
  destruct (transact self tx s) as [s' [r log|e]] eqn:E; cbn [fst];
    [|by apply transact_failure in E as ->].
  by_call E C.
  all: try (destruct E as [(?&?&?)|(?&?&?&?&?&?)]).
  all: subst; split; [intros x; specialize (Hop x)|intros t0 Ht0; specialize (Hap t0)].
  all: try (by frame).
  all: frame; split_keys; try done; try congruence; try (by apply Hap).
  exfalso.
  match goal with H : _ ∨ _ |- _ =>
    destruct H as [?|Hx]; [done | by rewrite Hop in Hx] end.
Qed.

Lemma run_sealed self txs : ∀ s,
  Forall (wf_tx self) txs → custody_sealed self s → custody_sealed self (run self txs s).
Proof.
  induction txs as [|tx txs IH]; intros s Hwf Hs; cbn [run]; [done|].
  inversion Hwf; subst. apply IH; [done|]. by apply transact_sealed.
Qed.

Lemma deploy_sealed self operator : custody_sealed self (deploy operator).
Proof.
  split; intros; unfold operatorAt, approvedAt; cbn; by rewrite lookup_empty.
Qed.

(** X25: the inherited entry points cannot take an asset out of the
    marketplace's custody.  In a state reached from deployment, while the
    registry records the marketplace as the owner of an asset, every
    [approve], [transferFrom] and [safeTransferFrom] on it by another
    account reverts, and the only calls after which the marketplace is no
    longer its owner are [createMarketSale] and [finalizeAuction] on that
    asset. *)
Theorem custody_ends_only_by_sale self operator txs tx t :
  self ≠ 0 → Forall (wf_tx self) txs → wf_tx self tx →
  let s := run self txs (deploy operator) in
  ownerAt s t = self →
  (ownerAt (transact self tx s).1 t ≠ self →
     tx_call tx = CreateMarketSale t ∨ tx_call tx = FinalizeAuction t) ∧
  match tx_call tx with
  | Approve _ t' | TransferFrom _ _ t' | SafeTransferFrom _ _ t' =>
      t' = t → ∃ e, transact self tx s = (s, Failure e)
  | _ => True
  end.
Proof.
  intros Hself Hwf Htx s Ho.
  assert (Hs : custody_sealed self s) by (apply run_sealed; [done|apply deploy_sealed]).
  clearbody s. destruct Hs as [Hop Hap]. specialize (Hap t Ho). destruct Htx as (Hs0 & Hss & _).
  assert (Hno : ¬ may_move s (tx_sender tx) t).
  { unfold may_move. rewrite Ho, Hop, Hap. intros [?|[?|?]]; congruence. }
  assert (Hnop : ¬ (tx_sender tx = ownerAt s t ∨ operatorAt s (ownerAt s t) (tx_sender tx) = true)).
  { rewrite Ho, Hop. intros [?|?]; congruence. }
  split.
  - intros Hmoved.
    destruct (transact self tx s) as [s' [r log|e]] eqn:E; cbn [fst] in Hmoved;
      [|apply transact_failure in E as ->; done].
    by_call E C.
    all: try (destruct E as [(?&?&?)|(?&?&?&?&?&?)]).
    all: subst.
    all: try (exfalso; apply Hmoved; by frame).
    all: try (destruct (decide (tokenId = t)) as [->|Hne]; [auto|exfalso; apply Hmoved; by frame]).
    all: exfalso; by apply Hno.
  - destruct (tx_call tx) eqn:C; try exact I.
    all: intros ->.
    all: destruct (transact self tx s) as [s' [r log|e]] eqn:E;
      [|apply transact_failure in E as ->; by exists e].
    all: exfalso; apply transact_success in E as [_ E]; apply body_ok in E; rewrite C in E;
      destruct E as [_ E]; use_ok E.
    + by apply Hnop.
    + by apply Hno.
    + by apply Hno.
Qed.

Lemma custody_ends_only_by_sale_witness :
  ∃ e, transact Demo.market (transfer_tx Demo.seller 2 Demo.market Demo.seller 1)
         (Demo.after Demo.listed)
       = (Demo.after Demo.listed, Failure e).
Proof.
  assert (Hwf : Forall (wf_tx Demo.market) Demo.listed).
  { cbv [Demo.listed]. repeat (constructor; [wf_compute|]). constructor. }
  destruct (custody_ends_only_by_sale Demo.market Demo.operator Demo.listed
              (transfer_tx Demo.seller 2 Demo.market Demo.seller 1) 1
              ltac:(done) Hwf) as [_ H]; [wf_compute | by_compute |].
  by apply H.
Defined.
